(** * planfix: the directive store and the index-filtering hook

    A shallow embedding of [planfix.c], a PostgreSQL extension that keeps a
    process-wide list of [PlanfixDirective]s (one table, a whitelist of
    indexes) compiled from the configuration string [planfix.forcedindex]
    and, during planning, removes from a relation's candidate index list
    every index that a matching directive does not whitelist.

    Modelling conventions.
    - A C string is the Rocq [string] of its characters before the
      terminating NUL; the end of the Rocq string is the NUL.
    - [Oid] is an unsigned 32-bit catalog identifier; the code only compares
      oids, so they are kept in [N] with [InvalidOid = 0].
    - The directives are [palloc]ed objects reached through pointers.  The
      global list [directives] therefore holds addresses, and a heap maps
      every live address to the object stored there.  Reading through an
      address that is not live raises [SIGSEGV].
    - [directive_free] hands a [palloc]ed object to the C library's [free].
      That call is undefined and a backend aborts in it: it is modelled as
      the fault [INVALID_FREE], which ends the run like an exception.
    - [elog(ERROR, ...)] does not return to its caller: it is modelled as an
      exception that leaves the global state as it is at that moment.
    - The catalog ([RangeVarGetRelid], [get_rel_relkind]), the planner's own
      nodes and the hooks of other extensions are parameters. *)

From stdpp Require Import gmap strings list.
From Equations Require Import Equations.
From Stdlib Require Import Ascii.

(** ** PostgreSQL types and constants the source relies on *)

Abbreviation Oid := N (only parsing).
Abbreviation ptr := N (only parsing).

Definition InvalidOid : Oid := 0%N.

(** [pg_class.relkind] codes: ['r'] is an ordinary table, ['i'] an index. *)
Definition RELKIND_RELATION : ascii := "r"%char.
Definition RELKIND_INDEX : ascii := "i"%char.

(** The [List] API of PostgreSQL ([nodes/pg_list.h]); [NIL] is [[]]. *)
Module PgList.

Definition lappend {A} (l : list A) (x : A) : list A := l ++ [x].

Definition lappend_oid (l : list Oid) (o : Oid) : list Oid := l ++ [o].

(** [list_delete_ptr] unlinks the first cell holding the pointer, and
    returns the list as it is when no cell holds it. *)
Fixpoint list_delete_ptr (l : list ptr) (datum : ptr) : list ptr :=
  match l with
  | [] => []
  | p :: l' => if decide (p = datum) then l' else p :: list_delete_ptr l' datum
  end.

Fixpoint list_member_oid (l : list Oid) (datum : Oid) : bool :=
  match l with
  | [] => false
  | o :: l' => if decide (o = datum) then true else list_member_oid l' datum
  end.

End PgList.
Import PgList.

(** ** The tokenizer: [SimpleStringSplit] *)

Definition inspect {A : Type} (x : A) : { y : A | x = y } := exist _ x eq_refl.

(** The inner [while] loop, which advances [nextp] up to the next separator
    or the end of the string: the text [nextp] points at when it exits. *)
Fixpoint scan_run (separator : ascii) (nextp : string) : string :=
  match nextp with
  | EmptyString => EmptyString
  | String c rest =>
      if Ascii.eqb c separator then nextp else scan_run separator rest
  end.

(** One round of [for(;;)]: [curr] is the text at the old [nextp], [endp] the
    text where the scan stopped, [len = endp - curr] the number of characters
    in between; a token of [len] characters is copied out when [len > 0].
    ([int len] cannot overflow: every string of a backend is [palloc]ed and
    thus shorter than [MaxAllocSize], 1 GB.) *)
Definition take_token (curr endp : string) (tokenList : list string)
  : list string :=
  let len := String.length curr - String.length endp in
  if bool_decide (0 < len) then lappend tokenList (String.substring 0 len curr)
  else tokenList.

Equations? split_loop (separator : ascii) (nextp : string)
    (tokenList : list string) : list string
    by wf (String.length nextp) lt :=
  split_loop separator nextp tokenList
    with inspect (scan_run separator nextp) := {
    | @exist EmptyString _ =>
        (* the scan stopped at the terminating NUL: break *)
        take_token nextp EmptyString tokenList
    | @exist (String c nextp') Hend =>
        (* [++nextp] steps over the separator *)
        split_loop separator nextp'
          (take_token nextp (String c nextp') tokenList) }.
Proof.
  assert (Hlen : ∀ s, String.length (scan_run separator s) ≤ String.length s).
  { induction s as [|a s IH]; simpl; [lia|].
    destruct (Ascii.eqb a separator); simpl; lia. }
  specialize (Hlen nextp). rewrite Hend in Hlen. simpl in Hlen. lia.
Qed.

Definition SimpleStringSplit (s : string) (separator : ascii) : list string :=
  split_loop separator s [].

(** ** Data model *)

Inductive PlanfixOp := PLANFIX_OP_FORCEINDEX.

Record PlanfixDirective := mkDirective {
  op : PlanfixOp;
  relation : Oid;
  indices : list Oid
}.

#[global] Instance PlanfixOp_eq_dec : EqDecision PlanfixOp.
Proof. solve_decision. Defined.

#[global] Instance PlanfixDirective_eq_dec : EqDecision PlanfixDirective.
Proof. solve_decision. Defined.

(** Planner nodes, reduced to the fields the hook reads or writes. *)
Record IndexOptInfo := mkIndexOptInfo { indexoid : Oid }.

Record RelOptInfo := mkRelOptInfo { indexlist : list ptr }.

(** Values of type [get_relation_info_hook_type]: this extension's own
    [planfixHook], or the hook of another module. *)
Inductive fnptr :=
| planfixHook_ptr
| extern_ptr (f : N).

#[global] Instance fnptr_eq_dec : EqDecision fnptr.
Proof. solve_decision. Defined.

(** The global variables of the module, the heap of [palloc]ed directives,
    and PostgreSQL's hook variable [get_relation_info_hook]. *)
Record Globals := mkGlobals {
  directives : list ptr;
  heap : gmap ptr PlanfixDirective;
  oldHook : option fnptr;
  get_relation_info_hook : option fnptr
}.

Definition set_directives (f : list ptr → list ptr) (g : Globals) : Globals :=
  mkGlobals (f (directives g)) (heap g) (oldHook g) (get_relation_info_hook g).

Definition set_heap
    (f : gmap ptr PlanfixDirective → gmap ptr PlanfixDirective)
    (g : Globals) : Globals :=
  mkGlobals (directives g) (f (heap g)) (oldHook g) (get_relation_info_hook g).

Definition set_relation (o : Oid) (d : PlanfixDirective) : PlanfixDirective :=
  mkDirective (op d) o (indices d).

Definition set_indices (l : list Oid) (d : PlanfixDirective)
  : PlanfixDirective :=
  mkDirective (op d) (relation d) l.

(** ** Errors and the state monad of the module *)

(** The four [elog(ERROR, ...)] messages of [varForcedIndexAssign]. *)
Inductive elog_msg :=
| oid_invalid_for_name (name : string)
| only_one_relation (name : string)
| one_relation_first (name : string)
| unhandled_relkind (name : string).

Inductive exn :=
| ERROR (msg : elog_msg)
| SIGSEGV (p : ptr)
| INVALID_FREE (p : ptr)
| UNBOUNDED_RECURSION.

Inductive result (A : Type) :=
| Ok (a : A)
| Raise (e : exn).
Arguments Ok {A} a.
Arguments Raise {A} e.

Definition M (A : Type) : Type := Globals → result A * Globals.

#[global] Instance M_ret : MRet M := λ A a g, (Ok a, g).

#[global] Instance M_bind : MBind M := λ A B f m g,
  match m g with
  | (Ok a, g') => f a g'
  | (Raise e, g') => (Raise e, g')
  end.

Definition gets {A} (f : Globals → A) : M A := λ g, (Ok (f g), g).

Definition modify (f : Globals → Globals) : M unit := λ g, (Ok tt, f g).

Definition raise {A} (e : exn) : M A := λ g, (Raise e, g).

Definition elog_ERROR {A} (msg : elog_msg) : M A := raise (ERROR msg).

(** [foreach(c, l) { body }] *)
Fixpoint foreach {A} (l : list A) (body : A → M unit) : M unit :=
  match l with
  | [] => mret tt
  | x :: l' => body x ;; foreach l' body
  end.

(** [foreach] with a local variable carried from round to round. *)
Fixpoint foreach_acc {A B} (l : list A) (acc : B) (body : B → A → M B) : M B :=
  match l with
  | [] => mret acc
  | x :: l' => acc' ← body acc x; foreach_acc l' acc' body
  end.

(** *** Memory *)

(** [palloc] returns an address that is not live; the fields are set by the
    assignments that follow the call in the source. *)
Definition palloc (init : PlanfixDirective) : M ptr := λ g,
  let p := fresh (dom (heap g)) in
  (Ok p, set_heap <[p := init]> g).

(** Reading the object [d] points to. *)
Definition load (d : ptr) : M PlanfixDirective := λ g,
  match heap g !! d with
  | Some v => (Ok v, g)
  | None => (Raise (SIGSEGV d), g)
  end.

(** Writing the object [d] points to. *)
Definition store (d : ptr) (v : PlanfixDirective) : M unit :=
  load d ;; modify (set_heap <[d := v]>).

(** [directive_free]: [list_free(d->indices); free(d);].  The object [d] was
    obtained from [palloc] (line 181), not from [malloc], so the call of
    [free] is invalid and the run ends in it. *)
Definition directive_free (d : ptr) : M unit :=
  load d ;; raise (INVALID_FREE d).

(** ** The environment of the module: catalog, planner, other hooks *)

Record Env := mkEnv {
  (** Name resolution as the source performs it on every item:
      [stringToQualifiedNameList], [makeRangeVarFromNameList], then
      [RangeVarGetRelid(nameRange, NoLock, true)], which yields [InvalidOid]
      when no relation has the name.  The three calls are taken to return:
      an error they raise on their own is outside this model. *)
  relid_of_name : string → Oid;
  (** [pg_class.relkind] of a relation: what [get_rel_relkind] returns and
      what [heap_open(...)->rd_rel->relkind] reads. *)
  get_rel_relkind : Oid → ascii;
  PlannerInfo : Type;
  (** The planner's [IndexOptInfo] nodes, which the hook only reads. *)
  info_at : ptr → IndexOptInfo;
  (** What the hook of another module does to the [RelOptInfo] it is handed.
      [directives] and [oldHook] are [static]: no other module reaches them. *)
  extern_hook : N → PlannerInfo → Oid → bool → RelOptInfo → RelOptInfo
}.

Section Planfix.

Variable E : Env.

(** *** [varForcedIndexAssign] *)

(** The first block: every stored directive whose [op] is
    [PLANFIX_OP_FORCEINDEX] is collected in [fordelete], then handed to
    [directive_free] and unlinked from [directives]. *)
Definition assign_discard_old : M unit :=
  ds ← gets directives;
  fordelete ← foreach_acc ds [] (λ fordelete c,
    d ← load c;
    mret (if decide (op d = PLANFIX_OP_FORCEINDEX)
          then lappend fordelete c else fordelete));
  foreach fordelete (λ d,
    directive_free d ;;
    modify (set_directives (λ l, list_delete_ptr l d))).

(** The body of the loop over the items of one section. *)
Definition assign_item (d : ptr) (name : string) : M unit :=
  let oid := relid_of_name E name in
  if decide (oid = InvalidOid) then
    elog_ERROR (oid_invalid_for_name name)
  else if decide (get_rel_relkind E oid = RELKIND_RELATION) then
    v ← load d;
    if decide (relation v ≠ InvalidOid) then
      elog_ERROR (only_one_relation name)
    else store d (set_relation oid v)
  else if decide (get_rel_relkind E oid = RELKIND_INDEX) then
    v ← load d;
    if decide (relation v = InvalidOid) then
      elog_ERROR (one_relation_first name)
    else store d (set_indices (lappend_oid (indices v) oid) v)
  else
    elog_ERROR (unhandled_relkind name).

(** The body of the loop over the sections. *)
Definition assign_section (tmpdirectives : list ptr) (s : string)
  : M (list ptr) :=
  d ← palloc (mkDirective PLANFIX_OP_FORCEINDEX InvalidOid []);
  foreach (SimpleStringSplit s ",") (assign_item d) ;;
  mret (lappend tmpdirectives d).

(** After [elog(ERROR, ...)] nothing of the function runs any more; what
    follows the label [cleanup] releases lists that the model does not
    track. *)
Definition varForcedIndexAssign (newval : string) : M unit :=
  let rawname := newval in
  assign_discard_old ;;
  tmpdirectives ←
    foreach_acc (SimpleStringSplit rawname ";") [] assign_section;
  foreach tmpdirectives (λ d, modify (set_directives (λ l, lappend l d))).

(** *** [planfixHook] *)

Definition allowed (d : PlanfixDirective) (info : ptr) : bool :=
  list_member_oid (indices d) (indexoid (info_at E info)).

(** The two inner loops: collect the entries that are not allowed, then
    unlink each of them from [rel->indexlist]. *)
Definition hook_restrict (d : PlanfixDirective) (rel : RelOptInfo)
  : RelOptInfo :=
  let fordelete :=
    foldl (λ fordelete info,
             if negb (allowed d info) then lappend fordelete info
             else fordelete)
          [] (indexlist rel) in
  foldl (λ rel info, mkRelOptInfo (list_delete_ptr (indexlist rel) info))
        rel fordelete.

(** The body of the loop over [directives]. *)
Definition hook_directive (relationObjectId : Oid) (rel : RelOptInfo)
    (c : ptr) : M RelOptInfo :=
  d ← load c;
  if decide (op d = PLANFIX_OP_FORCEINDEX
             ∧ relation d = relationObjectId
             ∧ indices d ≠ [])
  then
    if decide (get_rel_relkind E relationObjectId = RELKIND_RELATION)
    then mret (hook_restrict d rel)
    else mret rel
  else mret rel.

(** A call through [oldHook] to a hook of another module runs that hook;
    were [oldHook] this very function, the call would never return. *)
Definition planfixHook (root : PlannerInfo E) (relationObjectId : Oid)
    (inhparent : bool) (rel : RelOptInfo) : M RelOptInfo :=
  ds ← gets directives;
  rel ← foreach_acc ds rel (hook_directive relationObjectId);
  h ← gets oldHook;
  match h with
  | None => mret rel
  | Some (extern_ptr f) =>
      mret (extern_hook E f root relationObjectId inhparent rel)
  | Some planfixHook_ptr => raise UNBOUNDED_RECURSION
  end.

(** *** [_PG_init] *)

(** PostgreSQL calls [_PG_init] once, when it loads the library, and it is
    that call which is modelled: creating the memory context and registering
    the configuration variable leave the modelled state alone, and the last
    statement installs the hook. *)
Definition _PG_init : M unit :=
  h ← gets get_relation_info_hook;
  if decide (h ≠ Some planfixHook_ptr) then
    modify (λ g, mkGlobals (directives g) (heap g) h (Some planfixHook_ptr))
  else mret tt.

End Planfix.

(** *** [varForcedIndexShow] *)

(** [strcpy(dst, src)] into a buffer of [size] bytes: what the buffer holds
    afterwards, the characters of [src] up to the terminating NUL it writes,
    or nothing when the buffer is too small for them. *)
Fixpoint strcpy (size : nat) (src : string) : option string :=
  match size, src with
  | O, _ => None
  | S _, EmptyString => Some EmptyString
  | S size', String c rest => String c <$> strcpy size' rest
  end.

(** The function reads the global [varForcedIndex], which PostgreSQL's
    configuration machinery points at the current value of the variable. *)
Definition varForcedIndexShow (varForcedIndex : string) : option string :=
  let size := String.length varForcedIndex + 1 in
  strcpy size varForcedIndex.

(** ** Specification-level definitions *)

(** *** The tokenizer, after the words of its contract

    [fields sep s] cuts [s] at every occurrence of [sep] and keeps every run,
    the empty ones too; [nonempty_runs] then drops the zero-length runs. *)
Fixpoint fields (sep : ascii) (s : string) : list string :=
  match s with
  | EmptyString => [EmptyString]
  | String c s' =>
      if Ascii.eqb c sep then EmptyString :: fields sep s'
      else match fields sep s' with
           | t :: ts => String c t :: ts
           | [] => [String c EmptyString]
           end
  end.

Definition nonempty_runs (sep : ascii) (s : string) : list string :=
  filter (λ t, t ≠ EmptyString) (fields sep s).

(** [join sep ts] writes the runs back with one separator between them. *)
Fixpoint join (sep : ascii) (ts : list string) : string :=
  match ts with
  | [] => EmptyString
  | [t] => t
  | t :: ts' => t +:+ String sep (join sep ts')
  end.

Fixpoint occurs (c : ascii) (s : string) : bool :=
  match s with
  | EmptyString => false
  | String a s' => Ascii.eqb a c || occurs c s'
  end.

(** The characters the inner loop of the tokenizer steps over. *)
Fixpoint run_prefix (separator : ascii) (s : string) : string :=
  match s with
  | EmptyString => EmptyString
  | String c rest =>
      if Ascii.eqb c separator then EmptyString
      else String c (run_prefix separator rest)
  end.

(** *** The directive compiler, without the heap

    What the loops of [varForcedIndexAssign] compute from the sections and
    items: either the first [elog] message, or one directive per section. *)

Definition fresh_directive : PlanfixDirective :=
  mkDirective PLANFIX_OP_FORCEINDEX InvalidOid [].

Definition add_item (E : Env) (v : PlanfixDirective) (name : string)
  : elog_msg + PlanfixDirective :=
  let oid := relid_of_name E name in
  if decide (oid = InvalidOid) then inl (oid_invalid_for_name name)
  else if decide (get_rel_relkind E oid = RELKIND_RELATION) then
    if decide (relation v ≠ InvalidOid) then inl (only_one_relation name)
    else inr (set_relation oid v)
  else if decide (get_rel_relkind E oid = RELKIND_INDEX) then
    if decide (relation v = InvalidOid) then inl (one_relation_first name)
    else inr (set_indices (lappend_oid (indices v) oid) v)
  else inl (unhandled_relkind name).

Fixpoint add_items (E : Env) (v : PlanfixDirective) (items : list string)
  : elog_msg + PlanfixDirective :=
  match items with
  | [] => inr v
  | name :: rest =>
      match add_item E v name with
      | inl e => inl e
      | inr v' => add_items E v' rest
      end
  end.

Definition compile_section (E : Env) (s : string)
  : elog_msg + PlanfixDirective :=
  add_items E fresh_directive (SimpleStringSplit s ",").

Fixpoint compile_sections (E : Env) (sections : list string)
  : elog_msg + list PlanfixDirective :=
  match sections with
  | [] => inr []
  | s :: rest =>
      match compile_section E s with
      | inl e => inl e
      | inr d =>
          match compile_sections E rest with
          | inl e => inl e
          | inr ds => inr (d :: ds)
          end
      end
  end.

Definition compile (E : Env) (newval : string)
  : elog_msg + list PlanfixDirective :=
  compile_sections E (SimpleStringSplit newval ";").

(** An item that resolves to an ordinary table, respectively to an index. *)
Definition names_table (E : Env) (name : string) : Prop :=
  relid_of_name E name ≠ InvalidOid
  ∧ get_rel_relkind E (relid_of_name E name) = RELKIND_RELATION.

Definition names_index (E : Env) (name : string) : Prop :=
  relid_of_name E name ≠ InvalidOid
  ∧ get_rel_relkind E (relid_of_name E name) = RELKIND_INDEX.

(** *** The store as the hook sees it *)

(** The directives the store holds, in list order. *)
Definition contents (g : Globals) : list PlanfixDirective :=
  omap (λ p, heap g !! p) (directives g).

(** The invariant of the module's state: every cell of [directives] points
    to a live object, no object is linked twice, and [oldHook] is not the
    module's own hook. *)
Record wf (g : Globals) : Prop := mk_wf {
  wf_NoDup : NoDup (directives g);
  wf_live : ∀ p, p ∈ directives g → is_Some (heap g !! p);
  wf_chain : oldHook g ≠ Some planfixHook_ptr
}.

(** The state of a backend before [_PG_init]: [directives] and [oldHook] are
    [NULL]; [h] is whatever PostgreSQL's hook variable holds. *)
Definition boot (h : option fnptr) : Globals := mkGlobals [] ∅ None h.

(** The same state with [oldHook] reset to [NULL]. *)
Definition without_oldHook (g : Globals) : Globals :=
  mkGlobals (directives g) (heap g) None (get_relation_info_hook g).

(** The test [planfixHook] makes on each directive. *)
Definition applies (T : Oid) (d : PlanfixDirective) : Prop :=
  op d = PLANFIX_OP_FORCEINDEX ∧ relation d = T ∧ indices d ≠ [].

(** The candidates a whitelist keeps. *)
Definition whitelisted (E : Env) (W : list Oid) (l : list ptr) : list ptr :=
  filter (λ p, indexoid (info_at E p) ∈ W) l.

(** One whitelist after the other, in store order. *)
Definition filter_by (E : Env) (T : Oid) (ds : list PlanfixDirective)
    (l : list ptr) : list ptr :=
  foldl (λ l d, if decide (applies T d) then whitelisted E (indices d) l else l)
        l ds.

(** The call that ends [planfixHook]. *)
Definition delegate (E : Env) (h : option fnptr) (root : PlannerInfo E)
    (T : Oid) (inhparent : bool) (rel : RelOptInfo) : RelOptInfo :=
  match h with
  | Some (extern_ptr f) => extern_hook E f root T inhparent rel
  | _ => rel
  end.

(** A candidate that every non-empty whitelist for [T] lists. *)
Definition in_every_whitelist (E : Env) (T : Oid) (ds : list PlanfixDirective)
    (p : ptr) : Prop :=
  Forall (λ d, relation d = T → indices d ≠ [] →
               indexoid (info_at E p) ∈ indices d) ds.

#[global] Instance in_every_whitelist_dec E T ds p :
  Decision (in_every_whitelist E T ds p).
Proof. unfold in_every_whitelist. apply _. Defined.

(** The candidate list the hook hands on, from the store contents alone:
    nothing is removed unless the relation is an ordinary table. *)
Definition hook_result (E : Env) (T : Oid) (ds : list PlanfixDirective)
    (l : list ptr) : list ptr :=
  if decide (get_rel_relkind E T = RELKIND_RELATION) then filter_by E T ds l
  else l.

(** The part of the state that allocation and field updates leave alone. *)
Record extends (g g' : Globals) : Prop := mk_extends {
  ext_directives : directives g' = directives g;
  ext_oldHook : oldHook g' = oldHook g;
  ext_hook : get_relation_info_hook g' = get_relation_info_hook g;
  ext_heap : heap g ⊆ heap g'
}.

(** *** Vocabulary of the further properties *)

(** The input with every occurrence of one character taken out. *)
Fixpoint remove_char (c : ascii) (s : string) : string :=
  match s with
  | EmptyString => EmptyString
  | String a s' =>
      if Ascii.eqb a c then remove_char c s' else String a (remove_char c s')
  end.

(** The tokens written one after the other. *)
Fixpoint flatten (ts : list string) : string :=
  match ts with
  | [] => EmptyString
  | t :: ts' => t +:+ flatten ts'
  end.

(** A string in which no character differs from [c]. *)
Fixpoint made_of (c : ascii) (s : string) : bool :=
  match s with
  | EmptyString => true
  | String a s' => Ascii.eqb a c && made_of c s'
  end.

(** What a tokenizer hands out: a non-empty string without the separator. *)
Definition token_of (sep : ascii) (t : string) : Prop :=
  t ≠ EmptyString ∧ occurs sep t = false.

(** The item lists the compiler accepts: no item, or the name of a table
    followed by names of indexes only. *)
Definition table_then_indexes (E : Env) (items : list string) : Prop :=
  items = []
  ∨ ∃ t idxs, items = t :: idxs
              ∧ names_table E t ∧ Forall (names_index E) idxs.

(** The directive such an item list stands for. *)
Definition directive_of_items (E : Env) (items : list string)
  : PlanfixDirective :=
  match items with
  | [] => fresh_directive
  | t :: idxs =>
      mkDirective PLANFIX_OP_FORCEINDEX (relid_of_name E t)
                  (relid_of_name E <$> idxs)
  end.

(** A directive whose identifiers have the kinds the data model asks for:
    no table and no index at all, or an ordinary table and indexes only. *)
Definition well_kinded (E : Env) (d : PlanfixDirective) : Prop :=
  (relation d = InvalidOid ∧ indices d = [])
  ∨ (relation d ≠ InvalidOid
     ∧ get_rel_relkind E (relation d) = RELKIND_RELATION
     ∧ Forall (λ o, o ≠ InvalidOid ∧ get_rel_relkind E o = RELKIND_INDEX)
              (indices d)).

(** Every live directive object is linked in [directives]. *)
Definition no_garbage (g : Globals) : Prop :=
  ∀ p, is_Some (heap g !! p) → p ∈ directives g.

(** Two whitelists that list the same indexes. *)
Definition same_whitelist (d d' : PlanfixDirective) : Prop :=
  relation d = relation d' ∧ ∀ o, o ∈ indices d ↔ o ∈ indices d'.

(** A configuration string all of whose groups the compiler accepts, and the
    directives it stands for, one per group. *)
Definition valid_config (E : Env) (newval : string) : Prop :=
  Forall (λ s, table_then_indexes E (SimpleStringSplit s ","))
         (SimpleStringSplit newval ";").

Definition directives_of_config (E : Env) (newval : string)
  : list PlanfixDirective :=
  (λ s, directive_of_items E (SimpleStringSplit s ","))
    <$> SimpleStringSplit newval ";".

(** The message the item [name] is rejected with when it comes after the
    accepted items [prefix] of its group, following the four [elog] calls of
    the item loop. *)
Inductive item_rejected (E : Env) (prefix : list string) (name : string)
  : elog_msg → Prop :=
| rejected_unresolved :
    relid_of_name E name = InvalidOid →
    item_rejected E prefix name (oid_invalid_for_name name)
| rejected_second_table :
    names_table E name → prefix ≠ [] →
    item_rejected E prefix name (only_one_relation name)
| rejected_index_first :
    names_index E name → prefix = [] →
    item_rejected E prefix name (one_relation_first name)
| rejected_relkind :
    relid_of_name E name ≠ InvalidOid →
    get_rel_relkind E (relid_of_name E name) ≠ RELKIND_RELATION →
    get_rel_relkind E (relid_of_name E name) ≠ RELKIND_INDEX →
    item_rejected E prefix name (unhandled_relkind name).

(** [e] is the message of the first offending item in scan order: every
    earlier group is acceptable, the items before it in its own group are
    acceptable, and the item itself is rejected with [e]. *)
Definition first_offender (E : Env) (sections : list string) (e : elog_msg)
  : Prop :=
  ∃ pre grp post prefix name rest,
    sections = pre ++ grp :: post
    ∧ Forall (λ s, table_then_indexes E (SimpleStringSplit s ",")) pre
    ∧ SimpleStringSplit grp "," = prefix ++ name :: rest
    ∧ table_then_indexes E prefix
    ∧ item_rejected E prefix name e.

(** ** A sample catalog

    Tables [T1], [T2] (oids 10, 20), indexes [I1], [I2], [I3] (oids 11, 12,
    13) and a view [V1] (oid 30); no other name resolves.  The planner node
    at address [p] describes the index with oid [10 + p]. *)
Module Sample.

Definition relid (name : string) : Oid :=
  if decide (name = "T1") then 10
  else if decide (name = "T2") then 20
  else if decide (name = "I1") then 11
  else if decide (name = "I2") then 12
  else if decide (name = "I3") then 13
  else if decide (name = "V1") then 30
  else InvalidOid.

Definition relkind (o : Oid) : ascii :=
  if decide (o = 10 ∨ o = 20)%N then RELKIND_RELATION
  else if decide (o = 11 ∨ o = 12 ∨ o = 13)%N then RELKIND_INDEX
  else "v"%char.

(** A hook of another module that reverses the candidate list. *)
Definition other_hook (f : N) (root : unit) (T : Oid) (inhparent : bool)
    (rel : RelOptInfo) : RelOptInfo :=
  mkRelOptInfo (reverse (indexlist rel)).

Definition env : Env :=
  mkEnv relid relkind unit (λ p, mkIndexOptInfo (10 + p)) other_hook.

Definition T1 : Oid := 10.
Definition T2 : Oid := 20.
Definition I1 : Oid := 11.
Definition I2 : Oid := 12.
Definition I3 : Oid := 13.

(** The state in which the store holds the one directive [d], at address 0,
    and the state in which it holds [d1] and [d2], at addresses 0 and 1. *)
Definition holding (d : PlanfixDirective) : Globals :=
  mkGlobals [0%N] {[ 0%N := d ]} None None.

Definition holding2 (d1 d2 : PlanfixDirective) : Globals :=
  mkGlobals [0%N; 1%N] (<[ 1%N := d2 ]> {[ 0%N := d1 ]}) None None.

Definition force (T : Oid) (W : list Oid) : PlanfixDirective :=
  mkDirective PLANFIX_OP_FORCEINDEX T W.

(** The stores the examples run on; each is what [varForcedIndexAssign]
    leaves when it is run on the configuration named in the comment, from
    the state of a fresh backend. *)
Definition store_T1_I1 : Globals :=              (* "T1,I1" *)
  holding (force T1 [I1]).

Definition store_T1_I1_I2 : Globals :=           (* "T1,I1,I2" *)
  holding (force T1 [I1; I2]).

Definition store_commas : Globals :=             (* "," *)
  holding fresh_directive.

(** The same store after [_PG_init] found the hook of another module, 7. *)
Definition store_chained : Globals :=
  mkGlobals [0%N] {[ 0%N := force T1 [I1; I2] ]}
            (Some (extern_ptr 7)) (Some planfixHook_ptr).

Definition store_T1_twice : Globals :=           (* "T1,I1;T1,I2" *)
  holding2 (force T1 [I1]) (force T1 [I2]).

Definition store_T1_bare_then_I2 : Globals :=    (* "T1;T1,I2" *)
  holding2 (force T1 []) (force T1 [I2]).

Definition store_T1_overlap : Globals :=         (* "T1,I1,I2;T1,I2,I3" *)
  holding2 (force T1 [I1; I2]) (force T1 [I2; I3]).

End Sample.

(** ** The tokenizer computes the non-empty runs *)

Lemma split_loop_step separator nextp tokenList :
  split_loop separator nextp tokenList =
  match scan_run separator nextp with
  | EmptyString => take_token nextp EmptyString tokenList
  | String c nextp' =>
      split_loop separator nextp' (take_token nextp (String c nextp') tokenList)
  end.
Proof.
  rewrite split_loop_equation_1. unfold inspect.
  assert (∀ r (H : scan_run separator nextp = r),
    split_loop_unfold_clause_1 separator nextp (r ↾ H) tokenList =
    match r with
    | EmptyString => take_token nextp EmptyString tokenList
    | String c nextp' =>
       split_loop separator nextp' (take_token nextp (String c nextp') tokenList)
    end) as Hgen by (intros [|c r] H; reflexivity).
  apply Hgen.
Qed.

Lemma scan_run_head separator s c r :
  scan_run separator s = String c r → c = separator.
Proof.
  induction s as [|a s IH]; simpl; [discriminate|].
  destruct (Ascii.eqb_spec a separator) as [->|Hne]; [|exact IH].
  intros [= -> _]. reflexivity.
Qed.

Lemma append_cons a (s t : string) : String a s +:+ t = String a (s +:+ t).
Proof. reflexivity. Qed.

Lemma append_nil (t : string) : EmptyString +:+ t = t.
Proof. reflexivity. Qed.

Lemma run_prefix_scan_run separator s :
  s = run_prefix separator s +:+ scan_run separator s.
Proof.
  induction s as [|a s IH]; simpl; [reflexivity|].
  destruct (Ascii.eqb a separator); [reflexivity|].
  rewrite append_cons. by rewrite <- IH.
Qed.

Lemma length_append (s t : string) :
  String.length (s +:+ t) = String.length s + String.length t.
Proof.
  induction s as [|a s IH]; [reflexivity|].
  rewrite append_cons. simpl. by rewrite IH.
Qed.

Lemma substring_append (s t : string) :
  String.substring 0 (String.length s) (s +:+ t) = s.
Proof.
  induction s as [|a s IH].
  - destruct t; reflexivity.
  - rewrite append_cons. simpl. by rewrite IH.
Qed.

Lemma scan_run_length separator s :
  String.length s =
  String.length (run_prefix separator s)
  + String.length (scan_run separator s).
Proof.
  rewrite <- length_append, <- run_prefix_scan_run. reflexivity.
Qed.

Lemma take_token_scan_run separator s tokenList :
  take_token s (scan_run separator s) tokenList =
  tokenList ++ filter (λ t, t ≠ EmptyString) [run_prefix separator s].
Proof.
  unfold take_token, lappend.
  pose proof (scan_run_length separator s) as Hlen.
  pose proof (run_prefix_scan_run separator s) as Heq.
  set (p := run_prefix separator s) in *.
  set (r := scan_run separator s) in *.
  clearbody p r. subst s.
  replace (String.length (p +:+ r) - String.length r)
    with (String.length p) by lia.
  rewrite substring_append.
  destruct p as [|a t].
  - rewrite bool_decide_eq_false_2 by (simpl; lia).
    rewrite filter_cons_False by (intros H; by apply H).
    by rewrite filter_nil, app_nil_r.
  - rewrite bool_decide_eq_true_2 by (simpl; lia).
    by rewrite filter_cons_True, filter_nil.
Qed.

Lemma fields_not_nil sep s : fields sep s ≠ [].
Proof.
  destruct s as [|a s]; simpl; [discriminate|].
  destruct (Ascii.eqb a sep); [discriminate|].
  destruct (fields sep s); discriminate.
Qed.

Lemma fields_scan_run sep s :
  fields sep s =
  match scan_run sep s with
  | EmptyString => [run_prefix sep s]
  | String _ r => run_prefix sep s :: fields sep r
  end.
Proof.
  induction s as [|a s IH]; simpl; [reflexivity|].
  destruct (Ascii.eqb a sep); [reflexivity|].
  rewrite IH. destruct (scan_run sep s); reflexivity.
Qed.

Lemma split_loop_spec separator s tokenList :
  split_loop separator s tokenList = tokenList ++ nonempty_runs separator s.
Proof.
  remember (String.length s) as n eqn:Hn.
  revert s tokenList Hn.
  induction n as [n IH] using lt_wf_ind. intros s tokenList ->.
  rewrite split_loop_step. unfold nonempty_runs.
  rewrite fields_scan_run.
  pose proof (scan_run_length separator s) as Hlen.
  pose proof (take_token_scan_run separator s tokenList) as Htok.
  destruct (scan_run separator s) as [|c r] eqn:Hscan.
  - exact Htok.
  - rewrite (IH (String.length r)) with (s := r); [|simpl in Hlen; lia|done].
    rewrite Htok. rewrite <- app_assoc. f_equal.
    rewrite filter_cons. rewrite filter_cons, filter_nil.
    destruct (decide (run_prefix separator s ≠ "")); reflexivity.
Qed.

Lemma SimpleStringSplit_spec s separator :
  SimpleStringSplit s separator = nonempty_runs separator s.
Proof. unfold SimpleStringSplit. by rewrite split_loop_spec. Qed.

(** [fields] is the one way of cutting [s] at its separators. *)
Lemma join_fields sep s : join sep (fields sep s) = s.
Proof.
  induction s as [|a s IH]; simpl; [reflexivity|].
  destruct (Ascii.eqb_spec a sep) as [->|Hne].
  - pose proof (fields_not_nil sep s) as Hnil.
    simpl. destruct (fields sep s); [done|]. by rewrite IH.
  - pose proof (fields_not_nil sep s) as Hnil.
    destruct (fields sep s) as [|t ts]; [done|].
    destruct ts as [|t' ts]; simpl in *; by rewrite <- IH.
Qed.

Lemma fields_no_separator sep s :
  Forall (λ t, occurs sep t = false) (fields sep s).
Proof.
  induction s as [|a s IH]; simpl.
  - by repeat constructor.
  - destruct (Ascii.eqb a sep) eqn:Ha.
    + by constructor.
    + pose proof (fields_not_nil sep s) as Hnil.
      destruct (fields sep s) as [|t ts]; [done|].
      inversion IH; subst. constructor; [|done]. simpl. by rewrite Ha.
Qed.

Lemma fields_append sep a b :
  fields sep (a +:+ String sep b) = fields sep a ++ fields sep b.
Proof.
  induction a as [|c a IH]; [rewrite append_nil|rewrite append_cons]; simpl.
  - by rewrite Ascii.eqb_refl.
  - destruct (Ascii.eqb c sep); [by rewrite IH|].
    rewrite IH. pose proof (fields_not_nil sep a) as Hnil.
    destruct (fields sep a); [done|reflexivity].
Qed.

Lemma nonempty_runs_append sep a b :
  nonempty_runs sep (a +:+ String sep b) =
  nonempty_runs sep a ++ nonempty_runs sep b.
Proof. unfold nonempty_runs. by rewrite fields_append, filter_app. Qed.

Lemma nonempty_runs_separator sep b :
  nonempty_runs sep (String sep b) = nonempty_runs sep b.
Proof. apply (nonempty_runs_append sep EmptyString b). Qed.

(** ** Running the monad *)

Lemma bind_Ok {A B} (m : M A) (f : A → M B) g a g' :
  m g = (Ok a, g') → (m ≫= f) g = f a g'.
Proof. unfold mbind, M_bind. by intros ->. Qed.

Lemma bind_Raise {A B} (m : M A) (f : A → M B) g e g' :
  m g = (Raise e, g') → (m ≫= f) g = (Raise e, g').
Proof. unfold mbind, M_bind. by intros ->. Qed.

Lemma load_live g p v : heap g !! p = Some v → load p g = (Ok v, g).
Proof. unfold load. by intros ->. Qed.

Lemma store_live g p v w :
  heap g !! p = Some v → store p w g = (Ok tt, set_heap <[p := w]> g).
Proof.
  intros Hp. unfold store. by rewrite (bind_Ok _ _ _ _ _ (load_live _ _ _ Hp)).
Qed.

Lemma set_heap_insert_id g p v :
  heap g !! p = Some v → set_heap <[p := v]> g = g.
Proof.
  intros Hp. destruct g as [ds h o c]. unfold set_heap. simpl in *.
  by rewrite insert_id.
Qed.

Lemma set_heap_insert_insert g p v w :
  set_heap <[p := w]> (set_heap <[p := v]> g) = set_heap <[p := w]> g.
Proof. unfold set_heap. simpl. by rewrite insert_insert_eq. Qed.

Lemma extends_refl g : extends g g.
Proof. by split. Qed.

Lemma extends_trans g1 g2 g3 : extends g1 g2 → extends g2 g3 → extends g1 g3.
Proof.
  intros [] []. split; try congruence. by etrans.
Qed.

Lemma extends_alloc g v :
  extends g (set_heap <[fresh (dom (heap g)) := v]> g).
Proof.
  split; try reflexivity. simpl. apply insert_subseteq.
  apply not_elem_of_dom, is_fresh.
Qed.

Lemma omap_lookup_Forall2 (m : gmap N PlanfixDirective) ps ds :
  Forall2 (λ p d, m !! p = Some d) ps ds → omap (λ p, m !! p) ps = ds.
Proof.
  induction 1 as [|p d ps ds Hp _ IH]; [done|].
  cbn. rewrite Hp. cbn. f_equal. exact IH.
Qed.

Lemma contents_Forall2 g ds :
  Forall2 (λ p d, heap g !! p = Some d) (directives g) ds → contents g = ds.
Proof. apply omap_lookup_Forall2. Qed.

Lemma contents_nil g : directives g = [] → contents g = [].
Proof. unfold contents. by intros ->. Qed.

Lemma wf_boot h : wf (boot h).
Proof. split; simpl; [constructor|intros p Hp; by apply elem_of_nil in Hp|done]. Qed.

(** ** [varForcedIndexAssign] computes [compile] *)

Section Assign.

Variable E : Env.

Lemma assign_item_spec d name g v :
  heap g !! d = Some v →
  assign_item E d name g =
  match add_item E v name with
  | inr v' => (Ok tt, set_heap <[d := v']> g)
  | inl e => (Raise (ERROR e), g)
  end.
Proof.
  intros Hd. unfold assign_item, add_item.
  repeat case_decide; try reflexivity;
    rewrite (bind_Ok _ _ _ _ _ (load_live _ _ _ Hd));
    repeat case_decide; try done; by apply store_live with v.
Qed.

Lemma assign_items_spec d items : ∀ g v,
  heap g !! d = Some v →
  match add_items E v items with
  | inr v' =>
      foreach items (assign_item E d) g = (Ok tt, set_heap <[d := v']> g)
  | inl e =>
      ∃ w, foreach items (assign_item E d) g
           = (Raise (ERROR e), set_heap <[d := w]> g)
  end.
Proof.
  induction items as [|name items IH]; intros g v Hd; simpl.
  - by rewrite set_heap_insert_id.
  - pose proof (assign_item_spec d name g v Hd) as Hitem.
    destruct (add_item E v name) as [e|v'].
    + exists v. rewrite (bind_Raise _ _ _ _ _ Hitem).
      by rewrite set_heap_insert_id.
    + rewrite (bind_Ok _ _ _ _ _ Hitem).
      specialize (IH (set_heap <[d := v']> g) v').
      simpl in IH. rewrite lookup_insert_eq in IH. specialize (IH eq_refl).
      destruct (add_items E v' items) as [e|v''].
      * destruct IH as [w IH]. exists w.
        by rewrite IH, set_heap_insert_insert.
      * by rewrite IH, set_heap_insert_insert.
Qed.

Lemma assign_section_spec tmpdirectives s g :
  let p := fresh (dom (heap g)) in
  match compile_section E s with
  | inr d =>
      assign_section E tmpdirectives s g
      = (Ok (tmpdirectives ++ [p]), set_heap <[p := d]> g)
  | inl e =>
      ∃ w, assign_section E tmpdirectives s g
           = (Raise (ERROR e), set_heap <[p := w]> g)
  end.
Proof.
  intros p. unfold compile_section, assign_section.
  assert (palloc fresh_directive g
          = (Ok p, set_heap <[p := fresh_directive]> g)) as Halloc by done.
  pose proof (assign_items_spec p (SimpleStringSplit s ",")
                (set_heap <[p := fresh_directive]> g) fresh_directive) as Hitems.
  simpl in Hitems. rewrite lookup_insert_eq in Hitems.
  specialize (Hitems eq_refl).
  fold fresh_directive. rewrite (bind_Ok _ _ _ _ _ Halloc).
  destruct (add_items E fresh_directive (SimpleStringSplit s ",")) as [e|d].
  - destruct Hitems as [w Hitems]. exists w.
    rewrite (bind_Raise _ _ _ _ _ Hitems). by rewrite set_heap_insert_insert.
  - rewrite (bind_Ok _ _ _ _ _ Hitems). by rewrite set_heap_insert_insert.
Qed.

Lemma assign_sections_spec sections : ∀ tmpdirectives g,
  match compile_sections E sections with
  | inr ds =>
      ∃ ps g',
        foreach_acc sections tmpdirectives (assign_section E) g
        = (Ok (tmpdirectives ++ ps), g')
        ∧ extends g g'
        ∧ Forall2 (λ p d, heap g' !! p = Some d) ps ds
        ∧ NoDup ps
        ∧ (∀ p, p ∈ ps → heap g !! p = None)
  | inl e =>
      ∃ g',
        foreach_acc sections tmpdirectives (assign_section E) g
        = (Raise (ERROR e), g')
        ∧ extends g g'
  end.
Proof.
  induction sections as [|s sections IH]; intros tmp g; simpl.
  - exists [], g. rewrite app_nil_r.
    split_and!; auto using extends_refl, NoDup_nil_2.
    intros p Hp. by apply elem_of_nil in Hp.
  - pose proof (assign_section_spec tmp s g) as Hs. simpl in Hs.
    set (p := fresh (dom (heap g))) in *.
    assert (heap g !! p = None) as Hfresh
      by apply not_elem_of_dom, is_fresh.
    destruct (compile_section E s) as [e|d].
    + destruct Hs as [w Hs]. eexists. rewrite (bind_Raise _ _ _ _ _ Hs).
      split; [done|apply extends_alloc].
    + rewrite (bind_Ok _ _ _ _ _ Hs).
      specialize (IH (tmp ++ [p]) (set_heap <[p := d]> g)).
      pose proof (extends_alloc g d) as Hext. fold p in Hext.
      destruct (compile_sections E sections) as [e|ds].
      * destruct IH as (g' & IH & Hext'). exists g'. split; [done|].
        by apply extends_trans with (set_heap <[p := d]> g).
      * destruct IH as (ps & g' & IH & Hext' & Hall & Hnd & Hnew).
        exists (p :: ps), g'. rewrite IH, <- app_assoc. simpl.
        split_and!; try done.
        -- by apply extends_trans with (set_heap <[p := d]> g).
        -- constructor; [|done].
           eapply lookup_weaken; [|apply (ext_heap _ _ Hext')].
           simpl. apply lookup_insert_eq.
        -- constructor; [|done]. intros Hin. apply Hnew in Hin.
           simpl in Hin. by rewrite lookup_insert_eq in Hin.
        -- intros q [->|Hq]%elem_of_cons; [done|].
           apply Hnew in Hq. simpl in Hq.
           eapply lookup_weaken_None; [exact Hq|apply (ext_heap _ _ Hext)].
Qed.

End Assign.

(** *** The first block: nothing to discard, or a fault *)

Lemma collect_spec l : ∀ acc g,
  (∀ p, p ∈ l → is_Some (heap g !! p)) →
  foreach_acc l acc (λ fordelete c,
    d ← load c;
    mret (if decide (op d = PLANFIX_OP_FORCEINDEX)
          then lappend fordelete c else fordelete)) g
  = (Ok (acc ++ l), g).
Proof.
  induction l as [|p l IH]; intros acc g Hlive; simpl.
  - by rewrite app_nil_r.
  - destruct (Hlive p) as [v Hv]; [by left|].
    rewrite (bind_Ok _ _ _ (acc ++ [p]) g).
    + rewrite IH; [by rewrite <- app_assoc|].
      intros q Hq. apply Hlive. by right.
    + rewrite (bind_Ok _ _ _ _ _ (load_live _ _ _ Hv)).
      destruct v as [[] r i]. reflexivity.
Qed.

Lemma assign_discard_old_empty g :
  directives g = [] → assign_discard_old g = (Ok tt, g).
Proof.
  intros Hnil. unfold assign_discard_old.
  assert (gets directives g = (Ok [], g)) as Hgets
    by (unfold gets; by rewrite Hnil).
  by rewrite (bind_Ok _ _ _ _ _ Hgets).
Qed.

(** With a directive stored, the loop over [fordelete] ends in the [free]
    of the first one. *)
Lemma assign_discard_old_faults g p ps :
  wf g → directives g = p :: ps →
  assign_discard_old g = (Raise (INVALID_FREE p), g).
Proof.
  intros [Hnd Hlive Hchain] Hds. unfold assign_discard_old.
  assert (gets directives g = (Ok (directives g), g)) as Hgets by done.
  rewrite (bind_Ok _ _ _ _ _ Hgets).
  rewrite (bind_Ok _ _ _ _ _ (collect_spec (directives g) [] g Hlive)).
  rewrite Hds. simpl. destruct (Hlive p) as [v Hv]; [rewrite Hds; by left|].
  apply bind_Raise. apply bind_Raise. unfold directive_free.
  by rewrite (bind_Ok _ _ _ _ _ (load_live _ _ _ Hv)).
Qed.

Lemma install_spec tmpdirectives : ∀ g,
  foreach tmpdirectives (λ d, modify (set_directives (λ l, lappend l d))) g
  = (Ok tt, set_directives (λ l, l ++ tmpdirectives) g).
Proof.
  induction tmpdirectives as [|p tmp IH]; intros g; simpl.
  - destruct g. unfold set_directives. simpl. by rewrite app_nil_r.
  - erewrite bind_Ok; [|reflexivity]. rewrite IH.
    unfold set_directives, lappend. simpl. by rewrite <- app_assoc.
Qed.

Section AssignSpec.

Variable E : Env.

(** On an empty store, a failed compilation raises the first [elog] message
    and leaves the store empty; a successful one installs exactly the
    compiled batch. *)
Lemma varForcedIndexAssign_spec newval g :
  wf g →
  directives g = [] →
  match compile E newval with
  | inr ds =>
      ∃ g',
        varForcedIndexAssign E newval g = (Ok tt, g')
        ∧ wf g' ∧ contents g' = ds
        ∧ oldHook g' = oldHook g
        ∧ get_relation_info_hook g' = get_relation_info_hook g
  | inl e =>
      ∃ g',
        varForcedIndexAssign E newval g = (Raise (ERROR e), g')
        ∧ wf g' ∧ directives g' = []
        ∧ oldHook g' = oldHook g
        ∧ get_relation_info_hook g' = get_relation_info_hook g
  end.
Proof.
  intros Hwf Hnil. unfold compile, varForcedIndexAssign.
  rewrite (bind_Ok _ _ _ _ _ (assign_discard_old_empty g Hnil)).
  pose proof (assign_sections_spec E (SimpleStringSplit newval ";") [] g)
    as Hloop.
  destruct (compile_sections E (SimpleStringSplit newval ";")) as [e|ds].
  - destruct Hloop as (g' & Hrun & Hext). exists g'.
    rewrite (bind_Raise _ _ _ _ _ Hrun).
    destruct Hext as [Hd Ho' Hh' _].
    assert (directives g' = []) as Hnil' by congruence.
    split_and!; try congruence.
    split; rewrite ?Hnil'; [constructor| |].
    + intros p Hp. by apply elem_of_nil in Hp.
    + rewrite Ho'. apply Hwf.
  - destruct Hloop as (ps & g' & Hrun & Hext & Hall & Hnd & _).
    rewrite (bind_Ok _ _ _ _ _ Hrun). rewrite install_spec. simpl.
    destruct Hext as [Hd Ho' Hh' _].
    eexists. split; [reflexivity|].
    assert (directives g' ++ ps = ps) as Hps by (by rewrite Hd, Hnil).
    split_and!; simpl; try congruence.
    + split; simpl; rewrite ?Hps; [done| |].
      * intros p Hp. apply list_elem_of_lookup in Hp as [i Hi].
        destruct (Forall2_lookup_l _ _ _ _ _ Hall Hi) as (d & _ & Hd').
        by exists d.
      * rewrite Ho'. apply Hwf.
    + apply contents_Forall2. simpl. by rewrite Hps.
Qed.

(** With a directive stored, the assignment ends in the [free] of the first
    stored directive, before it splits or compiles anything. *)
Lemma varForcedIndexAssign_faults newval g p ps :
  wf g → directives g = p :: ps →
  varForcedIndexAssign E newval g = (Raise (INVALID_FREE p), g).
Proof.
  intros Hwf Hds. unfold varForcedIndexAssign.
  apply bind_Raise. by apply assign_discard_old_faults with ps.
Qed.

End AssignSpec.

(** ** The planning hook *)

Lemma list_member_oid_elem_of l o : list_member_oid l o = true ↔ o ∈ l.
Proof.
  induction l as [|a l IH]; simpl.
  - split; [done|]. intros H. by apply elem_of_nil in H.
  - case_decide as Ha.
    + subst. split; [intros _; by left|done].
    + rewrite IH. split; [by right|].
      intros [->|H]%elem_of_cons; done.
Qed.

Lemma list_delete_ptr_middle k a l :
  a ∉ k → list_delete_ptr (k ++ a :: l) a = k ++ l.
Proof.
  induction k as [|b k IH]; intros Hk; simpl.
  - by rewrite decide_True.
  - apply not_elem_of_cons in Hk as [Hne Hk].
    rewrite decide_False by done. by rewrite IH.
Qed.

Section Hook.

Variable E : Env.

Lemma fordelete_spec d l : ∀ acc,
  foldl (λ fordelete info,
           if negb (allowed E d info) then lappend fordelete info
           else fordelete) acc l
  = acc ++ filter (λ p, indexoid (info_at E p) ∉ indices d) l.
Proof.
  induction l as [|a l IH]; intros acc; simpl.
  - by rewrite filter_nil, app_nil_r.
  - rewrite IH, filter_cons. unfold allowed, lappend.
    destruct (list_member_oid (indices d) (indexoid (info_at E a))) eqn:Hm;
      simpl.
    + apply list_member_oid_elem_of in Hm. by rewrite decide_False by tauto.
    + rewrite decide_True; [by rewrite <- app_assoc|].
      rewrite <- list_member_oid_elem_of. by rewrite Hm.
Qed.

(** Unlinking every entry that is not allowed is a stable filter, also when
    an entry is linked more than once. *)
Lemma unlink_all_spec W l : ∀ k,
  Forall (λ p, indexoid (info_at E p) ∈ W) k →
  foldl (λ rel info, mkRelOptInfo (list_delete_ptr (indexlist rel) info))
        (mkRelOptInfo (k ++ l))
        (filter (λ p, indexoid (info_at E p) ∉ W) l)
  = mkRelOptInfo (k ++ whitelisted E W l).
Proof.
  unfold whitelisted.
  induction l as [|a l IH]; intros k Hk; simpl.
  - by rewrite filter_nil.
  - rewrite !filter_cons.
    destruct (decide (indexoid (info_at E a) ∈ W)) as [Ha|Ha].
    + rewrite decide_False by tauto.
      replace (k ++ a :: l) with ((k ++ [a]) ++ l) by by rewrite <- app_assoc.
      rewrite IH; [by rewrite <- app_assoc|].
      apply Forall_app. split; [done|by constructor].
    + rewrite decide_True by done. simpl.
      rewrite list_delete_ptr_middle; [by apply IH|].
      intros Hin. rewrite Forall_forall in Hk. by apply Hk in Hin.
Qed.

Lemma hook_restrict_spec d rel :
  hook_restrict E d rel
  = mkRelOptInfo (whitelisted E (indices d) (indexlist rel)).
Proof.
  unfold hook_restrict. rewrite fordelete_spec. simpl.
  destruct rel as [l]. simpl. by apply (unlink_all_spec (indices d) l []).
Qed.

(** What the loop over [directives] makes of the candidate list [l]. *)
Lemma hook_directive_spec T rel c g d :
  heap g !! c = Some d →
  hook_directive E T rel c g =
  (Ok (if decide (get_rel_relkind E T = RELKIND_RELATION)
       then mkRelOptInfo (filter_by E T [d] (indexlist rel))
       else rel), g).
Proof.
  intros Hc. unfold hook_directive, filter_by. simpl.
  rewrite (bind_Ok _ _ _ _ _ (load_live _ _ _ Hc)).
  unfold applies. destruct rel as [l]. simpl.
  repeat case_decide; try done; simpl; by rewrite ?hook_restrict_spec.
Qed.

Lemma hook_loop_spec T ps ds : ∀ rel g,
  Forall2 (λ p d, heap g !! p = Some d) ps ds →
  foreach_acc ps rel (hook_directive E T) g =
  (Ok (if decide (get_rel_relkind E T = RELKIND_RELATION)
       then mkRelOptInfo (filter_by E T ds (indexlist rel))
       else rel), g).
Proof.
  intros rel g Hall. revert rel.
  induction Hall as [|p d ps ds Hp _ IH]; intros rel; simpl.
  - destruct rel. by case_decide.
  - rewrite (bind_Ok _ _ _ _ _ (hook_directive_spec T rel p g d Hp)).
    rewrite IH. unfold filter_by. simpl. by case_decide.
Qed.

Lemma wf_contents g :
  wf g → Forall2 (λ p d, heap g !! p = Some d) (directives g) (contents g).
Proof.
  intros [_ Hlive _]. unfold contents.
  induction (directives g) as [|p ps IH]; simpl; [constructor|].
  destruct (Hlive p) as [d Hd]; [by left|]. rewrite Hd. simpl.
  constructor; [done|]. apply IH. intros q Hq. apply Hlive. by right.
Qed.

Lemma planfixHook_spec root T inhparent rel g :
  wf g →
  planfixHook E root T inhparent rel g =
  (Ok (delegate E (oldHook g) root T inhparent
         (mkRelOptInfo (hook_result E T (contents g) (indexlist rel)))), g).
Proof.
  intros Hwf. unfold planfixHook.
  assert (gets directives g = (Ok (directives g), g)) as Hgets by done.
  rewrite (bind_Ok _ _ _ _ _ Hgets).
  rewrite (bind_Ok _ _ _ _ _
             (hook_loop_spec T _ _ rel g (wf_contents g Hwf))).
  assert (gets oldHook g = (Ok (oldHook g), g)) as Hold by done.
  rewrite (bind_Ok _ _ _ _ _ Hold).
  unfold hook_result. pose proof (wf_chain g Hwf) as Hchain.
  destruct rel as [l]. simpl.
  destruct (oldHook g) as [[|f]|]; [done|..]; case_decide; reflexivity.
Qed.

(** The hook never writes the module's state. *)
Lemma hook_directive_frame T rel c g : (hook_directive E T rel c g).2 = g.
Proof.
  unfold hook_directive, load, mbind, M_bind.
  destruct (heap g !! c); [|done]. by repeat case_decide.
Qed.

Lemma hook_loop_frame T ps : ∀ rel g,
  (foreach_acc ps rel (hook_directive E T) g).2 = g.
Proof.
  induction ps as [|p ps IH]; intros rel g; simpl; [done|].
  unfold mbind, M_bind at 1.
  pose proof (hook_directive_frame T rel p g) as Hd.
  destruct (hook_directive E T rel p g) as [[rel'|e] g'];
    simpl in Hd; subst g'; [apply IH|done].
Qed.

Lemma planfixHook_frame root T inhparent rel g :
  (planfixHook E root T inhparent rel g).2 = g.
Proof.
  unfold planfixHook. unfold mbind, M_bind at 1. simpl.
  pose proof (hook_loop_frame T (directives g) rel g) as Hloop.
  unfold mbind, M_bind at 1.
  destruct (foreach_acc (directives g) rel (hook_directive E T) g)
    as [[rel'|e] g'].
  - simpl in Hloop. subst g'. unfold mbind, M_bind. simpl.
    by destruct (oldHook g) as [[|f]|].
  - done.
Qed.

(** *** The whitelists of one table *)

Lemma filter_by_app T ds1 ds2 l :
  filter_by E T (ds1 ++ ds2) l = filter_by E T ds2 (filter_by E T ds1 l).
Proof. unfold filter_by. by rewrite foldl_app. Qed.

Lemma filter_by_inert T ds : ∀ l,
  (∀ d, d ∈ ds → relation d = T → indices d = []) → filter_by E T ds l = l.
Proof.
  induction ds as [|d ds IH]; intros l Hds; [done|].
  change (filter_by E T (d :: ds) l)
    with (filter_by E T ds
            (if decide (applies T d) then whitelisted E (indices d) l else l)).
  rewrite decide_False.
  - apply IH. intros d' Hd'. apply Hds. by right.
  - intros (_ & Hr & Hi). apply Hi, Hds; [by left|done].
Qed.

Lemma filter_by_cons T d ds l :
  filter_by E T (d :: ds) l =
  filter_by E T ds
    (if decide (applies T d) then whitelisted E (indices d) l else l).
Proof. reflexivity. Qed.

Lemma filter_by_drop_inert T ds1 d ds2 l :
  (relation d = T → indices d = []) →
  filter_by E T (ds1 ++ d :: ds2) l = filter_by E T (ds1 ++ ds2) l.
Proof.
  intros Hd. rewrite !filter_by_app, filter_by_cons.
  rewrite decide_False; [done|].
  intros (_ & Hr & Hi). by apply Hi, Hd.
Qed.

Lemma filter_Forall {A} (P : A → Prop) `{∀ x, Decision (P x)} (l : list A) :
  Forall P l → filter P l = l.
Proof.
  induction 1 as [|x l Hx _ IH]; [done|].
  by rewrite filter_cons_True, IH.
Qed.

Lemma filter_by_intersection T ds : ∀ l,
  filter_by E T ds l = filter (in_every_whitelist E T ds) l.
Proof.
  induction ds as [|d ds IH]; intros l.
  - symmetry. apply filter_Forall, Forall_forall. intros p _. constructor.
  - rewrite filter_by_cons, IH. case_decide as Hd.
    + unfold whitelisted. rewrite list_filter_filter.
      apply list_filter_iff. intros p. unfold in_every_whitelist.
      rewrite Forall_cons. destruct Hd as (_ & Hr & Hi). tauto.
    + apply list_filter_iff. intros p. unfold in_every_whitelist.
      rewrite Forall_cons. unfold applies in Hd.
      destruct d as [[] r i]. simpl in *. tauto.
Qed.

Lemma filter_by_sublist T ds l : sublist (filter_by E T ds l) l.
Proof. rewrite filter_by_intersection. apply sublist_filter. Qed.

End Hook.

(** ** Assignments to the empty store *)

(** Registering the configuration variable makes PostgreSQL assign its boot
    value [""]; on the store of a fresh backend, that assignment changes
    nothing. *)
Lemma boot_assignment E h :
  varForcedIndexAssign E "" (boot h) = (Ok tt, boot h).
Proof. reflexivity. Qed.

(** On an empty store the assignment does not fault: it returns, or it
    raises the [elog] message that [compile] reports. *)
Lemma varForcedIndexAssign_raises E newval g x g' :
  wf g →
  directives g = [] →
  varForcedIndexAssign E newval g = (Raise x, g') →
  ∃ e, x = ERROR e ∧ compile E newval = inl e.
Proof.
  intros Hwf Hnil Hrun.
  pose proof (varForcedIndexAssign_spec E newval g Hwf Hnil) as Hspec.
  destruct (compile E newval) as [e|ds].
  - destruct Hspec as (g1 & Hrun1 & _). exists e. split; congruence.
  - destruct Hspec as (g1 & Hrun1 & _). congruence.
Qed.

(** ** Compiling groups *)

Section Compile.

Variable E : Env.

Lemma compile_sections_app pre post :
  compile_sections E (pre ++ post) =
  match compile_sections E pre with
  | inl e => inl e
  | inr d1 =>
      match compile_sections E post with
      | inl e => inl e
      | inr d2 => inr (d1 ++ d2)
      end
  end.
Proof.
  induction pre as [|s pre IH]; simpl.
  - by destruct (compile_sections E post).
  - destruct (compile_section E s); [done|]. rewrite IH.
    destruct (compile_sections E pre); [done|].
    by destruct (compile_sections E post).
Qed.

Lemma add_item_index v name :
  names_index E name →
  add_item E v name =
  if decide (relation v = InvalidOid) then inl (one_relation_first name)
  else inr (set_indices (lappend_oid (indices v) (relid_of_name E name)) v).
Proof.
  intros [Hoid Hkind]. unfold add_item.
  rewrite decide_False by done. rewrite Hkind.
  rewrite decide_False by done. by rewrite decide_True.
Qed.

Lemma add_item_no_table v name :
  relation v = InvalidOid → ¬ names_table E name →
  ∃ e, add_item E v name = inl e.
Proof.
  intros Hv Hname. unfold add_item.
  destruct (decide (relid_of_name E name = InvalidOid)) as [|Hoid];
    [by eexists|].
  destruct (decide (get_rel_relkind E (relid_of_name E name)
                    = RELKIND_RELATION)) as [Hkind|_].
  { destruct Hname. by split. }
  destruct (decide (get_rel_relkind E (relid_of_name E name)
                    = RELKIND_INDEX)); [|by eexists].
  rewrite decide_True by done. by eexists.
Qed.

Lemma add_items_index_first v before name after :
  relation v = InvalidOid →
  names_index E name →
  (∀ n, n ∈ before → ¬ names_table E n) →
  ∃ e, add_items E v (before ++ name :: after) = inl e
       ∧ (before = [] → e = one_relation_first name).
Proof.
  intros Hv Hname Hbefore. destruct before as [|b before]; simpl.
  - rewrite (add_item_index v name Hname), decide_True by done. by eexists.
  - destruct (add_item_no_table v b Hv) as [e He]; [apply Hbefore; by left|].
    rewrite He. by exists e.
Qed.

Lemma add_item_table v name :
  names_table E name →
  add_item E v name =
  if decide (relation v ≠ InvalidOid) then inl (only_one_relation name)
  else inr (set_relation (relid_of_name E name) v).
Proof.
  intros [Hoid Hkind]. unfold add_item.
  rewrite decide_False by done. by rewrite decide_True.
Qed.

Lemma add_items_indexes idxs : ∀ v,
  relation v ≠ InvalidOid →
  Forall (names_index E) idxs →
  add_items E v idxs
  = inr (set_indices (indices v ++ (relid_of_name E <$> idxs)) v).
Proof.
  induction idxs as [|name idxs IH]; intros v Hv Hall; simpl.
  - rewrite app_nil_r. by destruct v.
  - apply Forall_cons in Hall as [Hname Hall].
    rewrite (add_item_index v name Hname), decide_False by done.
    rewrite IH by done. unfold set_indices, lappend_oid. simpl.
    by rewrite <- app_assoc.
Qed.

Lemma compile_section_table_first grp t idxs :
  SimpleStringSplit grp "," = t :: idxs →
  names_table E t →
  Forall (names_index E) idxs →
  compile_section E grp
  = inr (mkDirective PLANFIX_OP_FORCEINDEX (relid_of_name E t)
                     (relid_of_name E <$> idxs)).
Proof.
  intros Hgrp Ht Hidxs. unfold compile_section. rewrite Hgrp. simpl.
  rewrite (add_item_table fresh_directive t Ht).
  rewrite decide_False by (intros H; by apply H).
  rewrite add_items_indexes; [done|apply Ht|done].
Qed.

End Compile.

(** ** The shape of what the compiler accepts and rejects *)

Section CompileShape.

Variable E : Env.

Lemma add_items_app v l1 l2 :
  add_items E v (l1 ++ l2) =
  match add_items E v l1 with
  | inl e => inl e
  | inr v' => add_items E v' l2
  end.
Proof.
  revert v. induction l1 as [|x l1 IH]; intros v; simpl; [done|].
  destruct (add_item E v x); [done|apply IH].
Qed.

Lemma add_item_inr_with_table v name v' :
  relation v ≠ InvalidOid →
  add_item E v name = inr v' →
  names_index E name
  ∧ v' = set_indices (indices v ++ [relid_of_name E name]) v.
Proof.
  intros Hv. unfold add_item, names_index.
  repeat case_decide; intros [= <-]; done.
Qed.

Lemma add_item_inr_without_table v name v' :
  relation v = InvalidOid →
  add_item E v name = inr v' →
  names_table E name ∧ v' = set_relation (relid_of_name E name) v.
Proof.
  intros Hv. unfold add_item, names_table.
  repeat case_decide; intros [= <-]; done.
Qed.

Lemma add_items_inr_with_table items : ∀ v d,
  relation v ≠ InvalidOid →
  add_items E v items = inr d →
  Forall (names_index E) items
  ∧ d = set_indices (indices v ++ (relid_of_name E <$> items)) v.
Proof.
  induction items as [|name items IH]; intros v d Hv; simpl.
  - intros [= <-]. split; [constructor|]. rewrite app_nil_r. by destruct v.
  - destruct (add_item E v name) as [e|v'] eqn:Hitem; [done|].
    apply (add_item_inr_with_table v name v' Hv) in Hitem as [Hname ->].
    intros Hrest. apply IH in Hrest as [Hall ->]; [|done].
    split; [by constructor|]. unfold set_indices. simpl.
    by rewrite <- app_assoc.
Qed.

Lemma accepted_items items :
  table_then_indexes E items →
  add_items E fresh_directive items = inr (directive_of_items E items).
Proof.
  intros [->|(t & idxs & -> & Ht & Hidxs)]; [done|]. simpl.
  rewrite (add_item_table E fresh_directive t Ht).
  rewrite decide_False by (intros H; by apply H).
  rewrite add_items_indexes; [done|apply Ht|done].
Qed.

Lemma add_items_inr items d :
  add_items E fresh_directive items = inr d →
  table_then_indexes E items ∧ d = directive_of_items E items.
Proof.
  destruct items as [|t idxs]; simpl.
  - intros [= <-]. split; [by left|done].
  - destruct (add_item E fresh_directive t) as [e|v'] eqn:Hitem; [done|].
    apply add_item_inr_without_table in Hitem as [Ht ->]; [|done].
    intros Hrest. apply add_items_inr_with_table in Hrest as [Hall ->];
      [|apply Ht].
    split; [|done]. right. by exists t, idxs.
Qed.

Lemma compile_sections_valid sections :
  Forall (λ s, table_then_indexes E (SimpleStringSplit s ",")) sections →
  compile_sections E sections
  = inr ((λ s, directive_of_items E (SimpleStringSplit s ",")) <$> sections).
Proof.
  induction 1 as [|s sections Hs _ IH]; simpl; [done|].
  unfold compile_section. by rewrite (accepted_items _ Hs), IH.
Qed.

Lemma compile_sections_inr sections : ∀ ds,
  compile_sections E sections = inr ds →
  Forall (λ s, table_then_indexes E (SimpleStringSplit s ",")) sections.
Proof.
  induction sections as [|s sections IH]; intros ds; simpl; [by constructor|].
  destruct (compile_section E s) as [e|d] eqn:Hs; [done|].
  destruct (compile_sections E sections) as [e|ds'] eqn:Hrest; [done|].
  intros _. constructor; [|by eapply IH].
  by apply add_items_inr in Hs as [? _].
Qed.

Lemma compile_valid newval :
  valid_config E newval →
  compile E newval = inr (directives_of_config E newval).
Proof. apply compile_sections_valid. Qed.

Lemma compile_inr newval ds :
  compile E newval = inr ds → valid_config E newval.
Proof. apply compile_sections_inr. Qed.

Lemma well_kinded_directive_of_items items :
  table_then_indexes E items → well_kinded E (directive_of_items E items).
Proof.
  intros [->|(t & idxs & -> & [Ht Hkind] & Hidxs)]; [by left|].
  right. simpl. split_and!; [done..|].
  apply Forall_fmap. eapply Forall_impl; [exact Hidxs|]. by intros x [? ?].
Qed.

End CompileShape.

Section FirstOffender.

Variable E : Env.

Lemma compile_first_offender pre grp post prefix name rest e :
  Forall (λ s, table_then_indexes E (SimpleStringSplit s ",")) pre →
  SimpleStringSplit grp "," = prefix ++ name :: rest →
  table_then_indexes E prefix →
  add_item E (directive_of_items E prefix) name = inl e →
  compile_sections E (pre ++ grp :: post) = inl e.
Proof.
  intros Hpre Hgrp Hprefix Hitem.
  rewrite compile_sections_app, (compile_sections_valid E pre Hpre). simpl.
  unfold compile_section.
  by rewrite Hgrp, add_items_app, (accepted_items E prefix Hprefix); simpl;
    rewrite Hitem.
Qed.

Lemma directive_of_items_relation prefix :
  table_then_indexes E prefix →
  relation (directive_of_items E prefix) = InvalidOid ↔ prefix = [].
Proof.
  intros [->|(t & idxs & -> & [Ht _] & _)]; simpl; [done|].
  split; [by intros ?|done].
Qed.

Lemma add_item_inl prefix name e :
  table_then_indexes E prefix →
  add_item E (directive_of_items E prefix) name = inl e
  ↔ item_rejected E prefix name e.
Proof.
  intros Hprefix.
  pose proof (directive_of_items_relation prefix Hprefix) as Hrel.
  unfold add_item. split.
  - repeat case_decide; intros [= <-].
    + by apply rejected_unresolved.
    + apply rejected_second_table; [done|]. by rewrite <- Hrel.
    + apply rejected_index_first; [done|]. by apply Hrel.
    + by apply rejected_relkind.
  - intros [Hoid|[Hoid Hkind] Hne|[Hoid Hkind] ->|Hoid Hr Hi].
    + by rewrite decide_True.
    + rewrite decide_False, decide_True, decide_True; [done| |done..].
      by rewrite Hrel.
    + rewrite decide_False by done.
      rewrite decide_False by (rewrite Hkind; discriminate).
      by rewrite decide_True, decide_True.
    + by rewrite !decide_False.
Qed.

Lemma add_items_inl items : ∀ v e,
  add_items E v items = inl e →
  ∃ prefix name rest v',
    items = prefix ++ name :: rest
    ∧ add_items E v prefix = inr v'
    ∧ add_item E v' name = inl e.
Proof.
  induction items as [|x items IH]; intros v e; simpl; [done|].
  destruct (add_item E v x) as [e0|v0] eqn:Hx.
  - intros [= <-]. by exists [], x, items, v.
  - intros (prefix & name & rest & v' & -> & Hp & Hn)%IH.
    exists (x :: prefix), name, rest, v'. simpl. by rewrite Hx.
Qed.

Lemma first_offender_cons s sections e :
  table_then_indexes E (SimpleStringSplit s ",") →
  first_offender E sections e → first_offender E (s :: sections) e.
Proof.
  intros Hs (pre & grp & post & prefix & name & rest & -> & Hpre & H).
  exists (s :: pre), grp, post, prefix, name, rest.
  split; [done|]. split; [by constructor|done].
Qed.

(** The message [compile_sections] reports is the one of the first offending
    item, and there is no other. *)
Lemma compile_sections_inl sections e :
  compile_sections E sections = inl e ↔ first_offender E sections e.
Proof.
  split.
  - revert e. induction sections as [|s sections IH]; intros e; simpl; [done|].
    destruct (compile_section E s) as [e0|d] eqn:Hs.
    + intros [= <-]. unfold compile_section in Hs.
      apply add_items_inl in Hs as (prefix & name & rest & v' & Hgrp & Hp & Hn).
      apply add_items_inr in Hp as [Hprefix ->].
      exists [], s, sections, prefix, name, rest.
      split_and!; [done|constructor|done|done|].
      by apply add_item_inl.
    + destruct (compile_sections E sections) as [e1|ds] eqn:Hrest; [|done].
      intros [= <-]. apply first_offender_cons; [|by apply IH].
      by apply add_items_inr in Hs as [? _].
  - intros (pre & grp & post & prefix & name & rest & -> & Hpre & Hgrp
            & Hprefix & Hitem).
    apply (compile_first_offender pre grp post prefix name rest);
      [done..|].
    by apply add_item_inl.
Qed.

End FirstOffender.

(** ** Sample states *)

Lemma wf_holding d : wf (Sample.holding d).
Proof.
  split; simpl; [apply NoDup_singleton| |done].
  intros p ->%list_elem_of_singleton. exists d. apply lookup_singleton_eq.
Qed.

Lemma wf_holding2 d1 d2 : wf (Sample.holding2 d1 d2).
Proof.
  split; simpl; [| |done].
  - apply NoDup_cons. split; [|apply NoDup_singleton].
    by intros ?%list_elem_of_singleton.
  - intros p [->|Hp%list_elem_of_singleton]%elem_of_cons; [|subst p].
    + exists d1. by rewrite lookup_insert_ne, lookup_singleton_eq.
    + exists d2. apply lookup_insert_eq.
Qed.

(** Every sample store is the one the module reaches, from a fresh backend,
    on the configuration it is named after. *)
Lemma sample_stores_reached :
  varForcedIndexAssign Sample.env "T1,I1" (boot None)
  = (Ok tt, Sample.store_T1_I1)
  ∧ varForcedIndexAssign Sample.env "T1,I1,I2" (boot None)
    = (Ok tt, Sample.store_T1_I1_I2)
  ∧ varForcedIndexAssign Sample.env "," (boot None)
    = (Ok tt, Sample.store_commas)
  ∧ varForcedIndexAssign Sample.env "T1,I1;T1,I2" (boot None)
    = (Ok tt, Sample.store_T1_twice)
  ∧ varForcedIndexAssign Sample.env "T1;T1,I2" (boot None)
    = (Ok tt, Sample.store_T1_bare_then_I2)
  ∧ varForcedIndexAssign Sample.env "T1,I1,I2;T1,I2,I3" (boot None)
    = (Ok tt, Sample.store_T1_overlap)
  ∧ (_PG_init ;; varForcedIndexAssign Sample.env "T1,I1,I2")
      (boot (Some (extern_ptr 7)))
    = (Ok tt, Sample.store_chained).
Proof. split_and!; vm_compute; reflexivity. Qed.

(** ** The claims *)




(** C2, as the code has it.  An empty segment between two [';'] is no group
    at all: the tokenizer drops it, and the assignment runs as if one of the
    two [';'] were not there.  A segment that splits on [','] into zero items,
    one made of commas only, is a group: it is not an error, and it
    compiles to one directive with no table ([InvalidOid]) and an empty
    whitelist, which an assignment to an empty store installs at its place
    in the batch and which the planning hook passes over, for every table
    and candidate list. *)
Theorem zero_item_group_installs_inert_directive
    E newval g pre s post dpre dpost :
  wf g →
  directives g = [] →
  SimpleStringSplit newval ";" = pre ++ s :: post →
  SimpleStringSplit s "," = [] →
  compile_sections E pre = inr dpre →
  compile_sections E post = inr dpost →
  (∃ g',
     varForcedIndexAssign E newval g = (Ok tt, g')
     ∧ contents g' = dpre ++ fresh_directive :: dpost
     ∧ ∀ root T inhparent rel,
         planfixHook E root T inhparent rel g'
         = (Ok (delegate E (oldHook g') root T inhparent
                  (mkRelOptInfo
                     (hook_result E T (dpre ++ dpost) (indexlist rel)))),
            g'))
  ∧ (∀ a b g0,
       varForcedIndexAssign E (a +:+ ";;" +:+ b) g0
       = varForcedIndexAssign E (a +:+ ";" +:+ b) g0)
  ∧ (∀ cfg, EmptyString ∉ SimpleStringSplit cfg ";").
Proof.
  intros Hwf Hnil Hsplit Hzero Hpre Hpost. split_and!.
  - pose proof (varForcedIndexAssign_spec E newval g Hwf Hnil) as Hspec.
    unfold compile in Hspec.
    rewrite Hsplit, compile_sections_app, Hpre in Hspec. simpl in Hspec.
    unfold compile_section in Hspec. rewrite Hzero, Hpost in Hspec.
    simpl in Hspec. destruct Hspec as (g' & Hrun & Hwf' & Hc & _).
    exists g'. split_and!; try done.
    intros root T inhparent rel. rewrite planfixHook_spec by done.
    rewrite Hc. unfold hook_result.
    by rewrite (filter_by_drop_inert E T dpre fresh_directive dpost).
  - intros a b g0. unfold varForcedIndexAssign.
    rewrite !SimpleStringSplit_spec.
    change (";;" +:+ b) with (String ";" (String ";" b)).
    change (";" +:+ b) with (String ";" b).
    by rewrite !nonempty_runs_append, nonempty_runs_separator.
  - intros cfg. rewrite SimpleStringSplit_spec. unfold nonempty_runs.
    rewrite list_elem_of_filter. tauto.
Qed.

Lemma zero_item_group_installs_inert_directive_witness :
  wf (boot None)
  ∧ directives (boot None) = []
  ∧ SimpleStringSplit "T1,I1;,,;T2" ";" = ["T1,I1"] ++ ",," :: ["T2"]
  ∧ SimpleStringSplit ",," "," = []
  ∧ compile_sections Sample.env ["T1,I1"]
    = inr [Sample.force Sample.T1 [Sample.I1]]
  ∧ compile_sections Sample.env ["T2"] = inr [Sample.force Sample.T2 []]
  ∧ ∃ g',
      varForcedIndexAssign Sample.env "T1,I1;,,;T2" (boot None) = (Ok tt, g')
      ∧ contents g'
        = [Sample.force Sample.T1 [Sample.I1]; fresh_directive;
           Sample.force Sample.T2 []].
Proof.
  split; [apply wf_boot|]. do 5 (split; [reflexivity|]).
  destruct (zero_item_group_installs_inert_directive Sample.env
              "T1,I1;,,;T2" (boot None) ["T1,I1"] ",," ["T2"] _ _
              (wf_boot None) eq_refl eq_refl eq_refl eq_refl eq_refl)
    as [(g' & Hrun & Hc & _) _].
  by exists g'.
Defined.

(** C2 as stated fails: the configuration [","] is one group with zero
    items, and a directive is installed for it. *)
Lemma comma_group_is_not_skipped :
  SimpleStringSplit "," ";" = [","]
  ∧ SimpleStringSplit "," "," = []
  ∧ varForcedIndexAssign Sample.env "," (boot None)
    = (Ok tt, Sample.store_commas)
  ∧ contents Sample.store_commas = [fresh_directive]
  ∧ contents Sample.store_commas ≠ contents (boot None).
Proof.
  split_and!;
    [reflexivity|reflexivity|vm_compute; reflexivity|reflexivity|done].
Qed.

(** C3, as the code has it.  For every stored directive with table [T], an
    ordinary table, and non-empty whitelist [W], provided every other
    directive stored for [T] has an empty whitelist, and for every candidate
    list presented for [T]: the hook hands on exactly the entries whose index
    identifier is in [W], in their original order, and removes all others;
    and it leaves unchanged the candidate list of any table that no stored
    directive names. *)
Theorem planfixHook_keeps_whitelisted
    E root T inhparent rel g ds1 d ds2 :
  wf g →
  contents g = ds1 ++ d :: ds2 →
  relation d = T →
  indices d ≠ [] →
  get_rel_relkind E T = RELKIND_RELATION →
  (∀ d', d' ∈ ds1 ++ ds2 → relation d' = T → indices d' = []) →
  let kept := filter (λ p, indexoid (info_at E p) ∈ indices d) (indexlist rel) in
  planfixHook E root T inhparent rel g
  = (Ok (delegate E (oldHook g) root T inhparent (mkRelOptInfo kept)), g)
  ∧ (∀ p, p ∈ kept ↔ p ∈ indexlist rel ∧ indexoid (info_at E p) ∈ indices d)
  ∧ sublist kept (indexlist rel)
  ∧ ∀ U, (∀ d', d' ∈ contents g → relation d' ≠ U) →
         planfixHook E root U inhparent rel g
         = (Ok (delegate E (oldHook g) root U inhparent rel), g).
Proof.
  intros Hwf Hc HT HW Hkind Hothers kept. split_and!.
  - rewrite planfixHook_spec by done. unfold hook_result.
    rewrite decide_True by done. rewrite Hc, filter_by_app, filter_by_cons.
    rewrite decide_True by (by destruct d as [[] ? ?]).
    rewrite !filter_by_inert; [done|..];
      intros d' Hd'; apply Hothers, elem_of_app; auto.
  - intros p. unfold kept. rewrite list_elem_of_filter. tauto.
  - apply sublist_filter.
  - intros U HU. rewrite planfixHook_spec by done. unfold hook_result.
    destruct rel as [l]. simpl. case_decide; [|done].
    rewrite filter_by_inert; [done|]. intros d' Hd' Hr. by apply HU in Hd'.
Qed.

Lemma planfixHook_keeps_whitelisted_witness :
  wf Sample.store_T1_I1_I2
  ∧ contents Sample.store_T1_I1_I2
    = [] ++ Sample.force Sample.T1 [Sample.I1; Sample.I2] :: []
  ∧ get_rel_relkind Sample.env Sample.T1 = RELKIND_RELATION
  ∧ indexoid <$> (info_at Sample.env <$> [1; 2; 3]%N)
    = [Sample.I1; Sample.I2; Sample.I3]
  ∧ planfixHook Sample.env tt Sample.T1 false (mkRelOptInfo [1; 2; 3]%N)
      Sample.store_T1_I1_I2
    = (Ok (mkRelOptInfo [1; 2]%N), Sample.store_T1_I1_I2)
  ∧ planfixHook Sample.env tt Sample.T2 false (mkRelOptInfo [1; 2; 3]%N)
      Sample.store_T1_I1_I2
    = (Ok (mkRelOptInfo [1; 2; 3]%N), Sample.store_T1_I1_I2).
Proof.
  split; [apply wf_holding|]. do 3 (split; [reflexivity|]).
  destruct (planfixHook_keeps_whitelisted Sample.env tt Sample.T1 false
              (mkRelOptInfo [1; 2; 3]%N) Sample.store_T1_I1_I2
              [] (Sample.force Sample.T1 [Sample.I1; Sample.I2]) []
              (wf_holding _) eq_refl eq_refl)
    as (Hrun & _ & _ & Hother).
  - discriminate.
  - reflexivity.
  - intros d' Hd'. by apply elem_of_nil in Hd'.
  - split; [rewrite Hrun; reflexivity|].
    rewrite (Hother Sample.T2); [reflexivity|].
    intros d' Hd'%list_elem_of_singleton. by subst d'.
Defined.

(** C3 as stated fails: after ["T1,I1;T1,I2"] the store holds the directive
    with table [T1] and whitelist [I1], the candidate at address 1 is the
    index [I1], and the hook removes it all the same. *)
Lemma second_directive_removes_whitelisted_entry :
  varForcedIndexAssign Sample.env "T1,I1;T1,I2" (boot None)
  = (Ok tt, Sample.store_T1_twice)
  ∧ Sample.force Sample.T1 [Sample.I1] ∈ contents Sample.store_T1_twice
  ∧ get_rel_relkind Sample.env Sample.T1 = RELKIND_RELATION
  ∧ indexoid (info_at Sample.env 1%N) ∈ [Sample.I1]
  ∧ planfixHook Sample.env tt Sample.T1 false (mkRelOptInfo [1; 2]%N)
      Sample.store_T1_twice
    = (Ok (mkRelOptInfo []), Sample.store_T1_twice)
  ∧ 1%N ∉ indexlist (mkRelOptInfo []).
Proof.
  split_and!; [vm_compute; reflexivity| |reflexivity| |reflexivity|].
  - change (contents Sample.store_T1_twice)
      with [Sample.force Sample.T1 [Sample.I1];
            Sample.force Sample.T1 [Sample.I2]].
    by left.
  - by left.
  - apply not_elem_of_nil.
Qed.

(** C4.  For every input string and separator character, the tokenizer
    returns, in order, the non-empty runs of characters between separator
    occurrences: the runs [fields] cuts the string into (joining them with the
    separator gives the string back, and none contains the separator), with
    the zero-length ones dropped; no trailing separator is needed.  In
    particular ["a,,b,"] yields ["a"; "b"], the empty string yields nothing
    and ["x"] yields ["x"]. *)
Theorem SimpleStringSplit_nonempty_runs :
  (∀ s separator,
     SimpleStringSplit s separator
     = filter (λ t, t ≠ EmptyString) (fields separator s)
     ∧ join separator (fields separator s) = s
     ∧ Forall (λ t, occurs separator t = false) (fields separator s))
  ∧ SimpleStringSplit "a,,b," "," = ["a"; "b"]
  ∧ SimpleStringSplit "" "," = []
  ∧ SimpleStringSplit "x" "," = ["x"].
Proof.
  split_and!; [|reflexivity..].
  intros s separator. split_and!.
  - apply SimpleStringSplit_spec.
  - apply join_fields.
  - apply fields_no_separator.
Qed.

(** C5, as the code has it.  For every table [T] and candidate list, if the
    store holds no directive for [T], or every directive it holds for [T]
    has an empty whitelist, the hook leaves the candidate list as it is: an
    empty whitelist restricts nothing. *)
Theorem planfixHook_empty_whitelist_permissive E root T inhparent rel g :
  wf g →
  (∀ d, d ∈ contents g → relation d = T → indices d = []) →
  planfixHook E root T inhparent rel g
  = (Ok (delegate E (oldHook g) root T inhparent rel), g).
Proof.
  intros Hwf Hempty. rewrite planfixHook_spec by done. unfold hook_result.
  destruct rel as [l]. simpl. case_decide; [|done].
  by rewrite filter_by_inert.
Qed.

Lemma planfixHook_empty_whitelist_permissive_witness :
  wf (Sample.holding (Sample.force Sample.T1 []))
  ∧ contents (Sample.holding (Sample.force Sample.T1 []))
    = [Sample.force Sample.T1 []]
  ∧ planfixHook Sample.env tt Sample.T1 false (mkRelOptInfo [1; 2; 3]%N)
      (Sample.holding (Sample.force Sample.T1 []))
    = (Ok (mkRelOptInfo [1; 2; 3]%N),
       Sample.holding (Sample.force Sample.T1 [])).
Proof.
  split; [apply wf_holding|]. split; [reflexivity|].
  rewrite (planfixHook_empty_whitelist_permissive Sample.env tt Sample.T1
             false (mkRelOptInfo [1; 2; 3]%N) _ (wf_holding _));
    [reflexivity|].
  intros d Hd%list_elem_of_singleton. by subst d.
Defined.

(** C5 as stated fails: after ["T1;T1,I2"] the store holds a directive for
    [T1] whose whitelist is empty, and the hook still removes a candidate. *)
Lemma empty_whitelist_beside_another_restricts :
  varForcedIndexAssign Sample.env "T1;T1,I2" (boot None)
  = (Ok tt, Sample.store_T1_bare_then_I2)
  ∧ Sample.force Sample.T1 [] ∈ contents Sample.store_T1_bare_then_I2
  ∧ planfixHook Sample.env tt Sample.T1 false (mkRelOptInfo [1; 2]%N)
      Sample.store_T1_bare_then_I2
    = (Ok (mkRelOptInfo [2%N]), Sample.store_T1_bare_then_I2)
  ∧ mkRelOptInfo [2%N] ≠ mkRelOptInfo [1; 2]%N.
Proof.
  split_and!; [vm_compute; reflexivity| |reflexivity|done].
  change (contents Sample.store_T1_bare_then_I2)
    with [Sample.force Sample.T1 []; Sample.force Sample.T1 [Sample.I2]].
  by left.
Qed.

(** C6, as the code has it.  For every configuration string containing a
    group in which an item that resolves to an index comes before any item
    that resolves to a table, assigned while the store is empty, compilation
    fails and the assignment is rejected, no directive being installed.  The
    error reported is the one of the first offending item in scan order, and
    of no other item: it is the index-before-table error, naming that index,
    when every earlier group compiles and the index is the first item of its
    group.  When the directive under construction already has its table, the
    index is appended to its whitelist. *)
Theorem index_before_table_rejected
    E newval g pre grp post before name after :
  wf g →
  directives g = [] →
  SimpleStringSplit newval ";" = pre ++ grp :: post →
  SimpleStringSplit grp "," = before ++ name :: after →
  names_index E name →
  (∀ n, n ∈ before → ¬ names_table E n) →
  (∃ e g',
     varForcedIndexAssign E newval g = (Raise (ERROR e), g')
     ∧ directives g' = []
     ∧ (∀ e', first_offender E (SimpleStringSplit newval ";") e' ↔ e' = e)
     ∧ (∀ dpre, compile_sections E pre = inr dpre → before = [] →
                e = one_relation_first name))
  ∧ (∀ d v g0,
       heap g0 !! d = Some v →
       relation v ≠ InvalidOid →
       assign_item E d name g0
       = (Ok tt,
          set_heap
            <[d := set_indices (indices v ++ [relid_of_name E name]) v]> g0))
  ∧ ∀ grp' t idxs,
      SimpleStringSplit grp' "," = t :: idxs →
      names_table E t →
      Forall (names_index E) idxs →
      name ∈ idxs →
      ∃ W, compile_section E grp'
           = inr (mkDirective PLANFIX_OP_FORCEINDEX (relid_of_name E t) W)
           ∧ relid_of_name E name ∈ W.
Proof.
  intros Hwf Hnil Hsplit Hgrp Hname Hbefore. split_and!.
  - destruct (add_items_index_first E fresh_directive before name after
                eq_refl Hname Hbefore) as (e0 & Hitems & Hfirst).
    assert (∃ e, compile E newval = inl e
                 ∧ (∀ dpre, compile_sections E pre = inr dpre → before = [] →
                            e = one_relation_first name)) as (e & Hc & Hpin).
    { unfold compile. rewrite Hsplit, compile_sections_app. simpl.
      unfold compile_section. rewrite Hgrp, Hitems.
      destruct (compile_sections E pre) as [e|dpre].
      - by exists e.
      - exists e0. split; [done|]. intros; by apply Hfirst. }
    pose proof (varForcedIndexAssign_spec E newval g Hwf Hnil) as Hspec.
    rewrite Hc in Hspec. destruct Hspec as (g' & Hrun & _ & Hnil' & _).
    exists e, g'. split_and!; try done.
    intros e'. rewrite <- compile_sections_inl. fold (compile E newval).
    rewrite Hc. split; [by intros [= ->]|by intros ->].
  - intros d v g0 Hd Hv. rewrite (assign_item_spec E d name g0 v Hd).
    rewrite (add_item_index E v name Hname). by rewrite decide_False.
  - intros grp' t idxs Hgrp' Ht Hidxs Hin.
    exists (relid_of_name E <$> idxs).
    split; [by apply compile_section_table_first|].
    by apply list_elem_of_fmap_2.
Qed.

Lemma index_before_table_rejected_witness :
  wf (boot None)
  ∧ directives (boot None) = []
  ∧ SimpleStringSplit "T2;I1,T1" ";" = ["T2"] ++ "I1,T1" :: []
  ∧ SimpleStringSplit "I1,T1" "," = [] ++ "I1" :: ["T1"]
  ∧ names_index Sample.env "I1"
  ∧ ∃ g',
      varForcedIndexAssign Sample.env "T2;I1,T1" (boot None)
      = (Raise (ERROR (one_relation_first "I1")), g')
      ∧ directives g' = [].
Proof.
  assert (names_index Sample.env "I1") as Hname by (split; [done|reflexivity]).
  split; [apply wf_boot|]. do 3 (split; [reflexivity|]).
  split; [exact Hname|].
  destruct (index_before_table_rejected Sample.env "T2;I1,T1"
              (boot None) ["T2"] "I1,T1" [] [] "I1" ["T1"]
              (wf_boot None) eq_refl eq_refl eq_refl Hname)
    as ((e & g' & Hrun & Hnil & _ & Hfirst) & _ & _).
  - intros n Hn. by apply elem_of_nil in Hn.
  - exists g'. rewrite Hrun.
    by rewrite (Hfirst [Sample.force Sample.T2 []] eq_refl eq_refl).
Defined.

(** C6 as stated fails: ["BAD;I1,T1"] contains the group ["I1,T1"], whose
    index [I1] comes before the table [T1], and the error reported is the one
    for the unknown name [BAD]. *)
Lemma earlier_error_reported_instead :
  SimpleStringSplit "BAD;I1,T1" ";" = ["BAD"; "I1,T1"]
  ∧ SimpleStringSplit "I1,T1" "," = ["I1"; "T1"]
  ∧ names_index Sample.env "I1"
  ∧ names_table Sample.env "T1"
  ∧ (∃ g',
       varForcedIndexAssign Sample.env "BAD;I1,T1" (boot None)
       = (Raise (ERROR (oid_invalid_for_name "BAD")), g'))
  ∧ ∀ name, oid_invalid_for_name "BAD" ≠ one_relation_first name.
Proof.
  split_and!; [reflexivity|reflexivity| | | |done].
  - split; [done|reflexivity].
  - split; [done|reflexivity].
  - eexists. vm_compute. reflexivity.
Qed.

(** C7.  Every invocation of the planning hook, once its own loop over the
    directives is done, calls the hook that was registered before it
    ([_PG_init] saved it in [oldHook] when it installed [planfixHook]) with
    the same planner state, table identifier and flag, and with the
    candidate list as its own filtering left it, a sublist of the one it
    received; what that hook returns is the result. *)
Theorem planfixHook_chains_to_oldHook E g0 f :
  get_relation_info_hook g0 = Some (extern_ptr f) →
  (∃ g1, _PG_init g0 = (Ok tt, g1)
         ∧ get_relation_info_hook g1 = Some planfixHook_ptr
         ∧ oldHook g1 = Some (extern_ptr f)
         ∧ directives g1 = directives g0 ∧ heap g1 = heap g0)
  ∧ ∀ g root T inhparent rel,
      wf g → oldHook g = Some (extern_ptr f) →
      ∃ own,
        planfixHook E root T inhparent rel (without_oldHook g)
        = (Ok own, without_oldHook g)
        ∧ sublist (indexlist own) (indexlist rel)
        ∧ planfixHook E root T inhparent rel g
          = (Ok (extern_hook E f root T inhparent own), g).
Proof.
  intros Hreg. split.
  - eexists. unfold _PG_init.
    erewrite bind_Ok; [|reflexivity]. rewrite Hreg.
    rewrite decide_True by done. by split_and!.
  - intros g root T inhparent rel Hwf Hold.
    exists (mkRelOptInfo (hook_result E T (contents g) (indexlist rel))).
    split_and!.
    + rewrite planfixHook_spec; [done|].
      destruct Hwf. by split.
    + simpl. unfold hook_result. case_decide; [apply filter_by_sublist|done].
    + rewrite planfixHook_spec by done. by rewrite Hold.
Qed.

Lemma planfixHook_chains_to_oldHook_witness :
  get_relation_info_hook (boot (Some (extern_ptr 7))) = Some (extern_ptr 7)
  ∧ wf Sample.store_chained
  ∧ oldHook Sample.store_chained = Some (extern_ptr 7)
  ∧ _PG_init (boot (Some (extern_ptr 7)))
    = (Ok tt, mkGlobals [] ∅ (Some (extern_ptr 7)) (Some planfixHook_ptr))
  ∧ planfixHook Sample.env tt Sample.T1 false (mkRelOptInfo [1; 2; 3]%N)
      Sample.store_chained
    = (Ok (Sample.other_hook 7 tt Sample.T1 false (mkRelOptInfo [1; 2]%N)),
       Sample.store_chained).
Proof.
  assert (wf Sample.store_chained) as Hwf.
  { split; simpl; [apply NoDup_singleton| |done].
    intros p Hp%list_elem_of_singleton. subst p.
    eexists. apply lookup_singleton_eq. }
  destruct (planfixHook_chains_to_oldHook Sample.env
              (boot (Some (extern_ptr 7))) 7 eq_refl) as [_ Hchain].
  destruct (Hchain Sample.store_chained tt Sample.T1 false
              (mkRelOptInfo [1; 2; 3]%N) Hwf eq_refl)
    as (own & Hown & _ & Hrun).
  split_and!; [done..|reflexivity|].
  rewrite Hrun. f_equal. f_equal.
  assert (Ok own = Ok (mkRelOptInfo [1; 2]%N)) as Heq.
  { apply (f_equal fst) in Hown. simpl in Hown. rewrite <- Hown.
    reflexivity. }
  by injection Heq as ->.
Defined.

(** C8.  The second of two successive assignments of a valid configuration
    string does not leave a store like the first one did.  From an empty
    store the first assignment installs the compiled directives; when there
    is at least one, the second assignment sets out to discard them before
    it compiles the string again, and the run ends in the [free] of the
    first stored directive, an object that [palloc] returned.  Only a
    configuration that compiles to no directive at all can be assigned
    twice. *)
Theorem second_assignment_faults E newval g ds :
  wf g →
  directives g = [] →
  compile E newval = inr ds →
  ∃ g1,
    varForcedIndexAssign E newval g = (Ok tt, g1)
    ∧ contents g1 = ds
    ∧ (ds ≠ [] →
       ∃ p ps, directives g1 = p :: ps
               ∧ varForcedIndexAssign E newval g1
                 = (Raise (INVALID_FREE p), g1))
    ∧ (ds = [] →
       ∃ g2, varForcedIndexAssign E newval g1 = (Ok tt, g2)
             ∧ contents g2 = contents g1).
Proof.
  intros Hwf Hnil Hok.
  pose proof (varForcedIndexAssign_spec E newval g Hwf Hnil) as H1.
  rewrite Hok in H1. destruct H1 as (g1 & Hrun1 & Hwf1 & Hc1 & _).
  exists g1. split_and!; [done..| |].
  - intros Hne. destruct (directives g1) as [|p ps] eqn:Hds.
    + by rewrite (contents_nil g1 Hds) in Hc1.
    + exists p, ps. split; [done|].
      by apply varForcedIndexAssign_faults with ps.
  - intros ->. assert (directives g1 = []) as Hnil1.
    { destruct Hwf1 as [_ Hlive _]. unfold contents in Hc1.
      destruct (directives g1) as [|p ps]; [done|].
      destruct (Hlive p) as [d Hd]; [by left|]. simpl in Hc1.
      by rewrite Hd in Hc1. }
    pose proof (varForcedIndexAssign_spec E newval g1 Hwf1 Hnil1) as H2.
    rewrite Hok in H2. destruct H2 as (g2 & Hrun2 & _ & Hc2 & _).
    exists g2. split; [done|congruence].
Qed.

Lemma second_assignment_faults_witness :
  wf (boot None)
  ∧ directives (boot None) = []
  ∧ compile Sample.env "T1,I1" = inr [Sample.force Sample.T1 [Sample.I1]]
  ∧ varForcedIndexAssign Sample.env "T1,I1" (boot None)
    = (Ok tt, Sample.store_T1_I1)
  ∧ varForcedIndexAssign Sample.env "T1,I1" Sample.store_T1_I1
    = (Raise (INVALID_FREE 0), Sample.store_T1_I1).
Proof.
  assert (varForcedIndexAssign Sample.env "T1,I1" (boot None)
          = (Ok tt, Sample.store_T1_I1)) as Hfirst
    by (vm_compute; reflexivity).
  split; [apply wf_boot|]. do 2 (split; [reflexivity|]).
  split; [exact Hfirst|].
  destruct (second_assignment_faults Sample.env "T1,I1" (boot None) _
              (wf_boot None) eq_refl eq_refl)
    as (g1 & Hrun1 & _ & Hfault & _).
  assert (g1 = Sample.store_T1_I1) as ->.
  { rewrite Hfirst in Hrun1. by injection Hrun1. }
  destruct (Hfault ltac:(discriminate)) as (p & ps & Hds & Hrun2).
  injection Hds as <- <-. exact Hrun2.
Defined.

(** C9.  When the store holds several directives for the same table [T], an
    ordinary table, the hook applies every one that has a non-empty
    whitelist, in store order, each to the list the previous ones left:
    a candidate survives exactly when its index is in every non-empty
    whitelist among the directives of [T]. *)
Theorem planfixHook_intersects_whitelists E root T inhparent rel g :
  wf g →
  get_rel_relkind E T = RELKIND_RELATION →
  let survivors :=
    foldl (λ l d, if decide (applies T d)
                  then filter (λ p, indexoid (info_at E p) ∈ indices d) l
                  else l)
          (indexlist rel) (contents g) in
  planfixHook E root T inhparent rel g
  = (Ok (delegate E (oldHook g) root T inhparent (mkRelOptInfo survivors)), g)
  ∧ ∀ p, p ∈ survivors ↔
         p ∈ indexlist rel
         ∧ ∀ d, d ∈ contents g → relation d = T → indices d ≠ [] →
                indexoid (info_at E p) ∈ indices d.
Proof.
  intros Hwf Hkind survivors. split.
  - rewrite planfixHook_spec by done. unfold hook_result.
    by rewrite decide_True.
  - intros p. change survivors with (filter_by E T (contents g) (indexlist rel)).
    rewrite filter_by_intersection, list_elem_of_filter.
    unfold in_every_whitelist. rewrite Forall_forall. tauto.
Qed.

Lemma planfixHook_intersects_whitelists_witness :
  wf Sample.store_T1_overlap
  ∧ get_rel_relkind Sample.env Sample.T1 = RELKIND_RELATION
  ∧ planfixHook Sample.env tt Sample.T1 false (mkRelOptInfo [1; 2; 3]%N)
      Sample.store_T1_overlap
    = (Ok (mkRelOptInfo [2%N]), Sample.store_T1_overlap).
Proof.
  split; [apply wf_holding2|]. split; [reflexivity|].
  destruct (planfixHook_intersects_whitelists Sample.env tt Sample.T1 false
              (mkRelOptInfo [1; 2; 3]%N) Sample.store_T1_overlap
              (wf_holding2 _ _) eq_refl)
    as [Hrun _].
  rewrite Hrun. reflexivity.
Defined.

(** C10.  The planning hook is read-only with respect to the directive
    store: whatever it is invoked with, the list of stored directives, the
    objects they point to and every other global of the module are the same
    after the call as before; only the [RelOptInfo] it returns differs. *)
Theorem planfixHook_store_read_only E root T inhparent rel g :
  (planfixHook E root T inhparent rel g).2 = g
  ∧ directives (planfixHook E root T inhparent rel g).2 = directives g
  ∧ contents (planfixHook E root T inhparent rel g).2 = contents g.
Proof. by rewrite planfixHook_frame. Qed.

(** ** Further properties of the tokenizer *)

Lemma fields_no_occurrence sep t : occurs sep t = false → fields sep t = [t].
Proof.
  induction t as [|a t IH]; simpl; [done|].
  destruct (Ascii.eqb a sep); simpl; [done|]. intros H. by rewrite IH.
Qed.

Lemma flatten_fields sep s : flatten (fields sep s) = remove_char sep s.
Proof.
  induction s as [|a s IH]; simpl; [done|].
  destruct (Ascii.eqb a sep).
  - simpl. by rewrite append_nil.
  - pose proof (fields_not_nil sep s) as Hnil.
    destruct (fields sep s) as [|t ts]; [done|].
    simpl in *. by rewrite append_cons, IH.
Qed.

Lemma flatten_nonempty ts :
  flatten (filter (λ t, t ≠ EmptyString) ts) = flatten ts.
Proof.
  induction ts as [|t ts IH]; [done|].
  rewrite filter_cons. destruct (decide (t ≠ EmptyString)) as [Ht|Ht]; simpl.
  - by rewrite IH.
  - apply dec_stable in Ht. subst t. by rewrite append_nil.
Qed.

Lemma made_of_fields sep s :
  made_of sep s = true ↔ Forall (λ t, t = EmptyString) (fields sep s).
Proof.
  induction s as [|a s IH]; simpl.
  - split; [by repeat constructor|done].
  - destruct (Ascii.eqb a sep); simpl.
    + rewrite IH. split; [by constructor|]. by intros [_ H]%Forall_cons.
    + split; [done|]. pose proof (fields_not_nil sep s) as Hnil.
      destruct (fields sep s); [done|]. by intros [? _]%Forall_cons.
Qed.

Lemma nonempty_runs_made_of sep s :
  made_of sep s = true → nonempty_runs sep s = [].
Proof.
  rewrite made_of_fields. unfold nonempty_runs.
  induction 1 as [|t ts Ht _ IH]; [done|].
  rewrite filter_cons_False; [done|]. intros H. by apply H.
Qed.

(** X1.  Every token the tokenizer returns is non-empty and free of the
    separator. *)
Theorem SimpleStringSplit_tokens s separator :
  Forall (token_of separator) (SimpleStringSplit s separator).
Proof.
  rewrite SimpleStringSplit_spec. unfold nonempty_runs, token_of.
  apply Forall_forall. intros t [Ht Hin]%list_elem_of_filter. split; [done|].
  pose proof (fields_no_separator separator s) as Hall.
  rewrite Forall_forall in Hall. by apply Hall.
Qed.

(** X2.  The tokenizer loses no character but the separators: the tokens,
    written one after the other, are the input with every separator taken
    out. *)
Theorem SimpleStringSplit_flatten s separator :
  flatten (SimpleStringSplit s separator) = remove_char separator s.
Proof.
  rewrite SimpleStringSplit_spec. unfold nonempty_runs.
  by rewrite flatten_nonempty, flatten_fields.
Qed.

(** X3.  Tokenizing two texts put together with one separator between them
    gives the tokens of the first followed by the tokens of the second. *)
Theorem SimpleStringSplit_append a b separator :
  SimpleStringSplit (a +:+ String separator b) separator
  = SimpleStringSplit a separator ++ SimpleStringSplit b separator.
Proof. rewrite !SimpleStringSplit_spec. apply nonempty_runs_append. Qed.

(** X4.  Writing tokens out with one separator between them and tokenizing
    the result gives the tokens back. *)
Theorem SimpleStringSplit_join ts separator :
  Forall (token_of separator) ts →
  SimpleStringSplit (join separator ts) separator = ts.
Proof.
  assert (∀ t, token_of separator t → SimpleStringSplit t separator = [t])
    as Hone.
  { intros t [Hne Hocc]. rewrite SimpleStringSplit_spec. unfold nonempty_runs.
    rewrite (fields_no_occurrence _ _ Hocc). by rewrite filter_cons_True. }
  induction 1 as [|t ts Ht Hts IH]; [done|].
  destruct ts as [|t' ts]; [by apply Hone|].
  change (join separator (t :: t' :: ts))
    with (t +:+ String separator (join separator (t' :: ts))).
  rewrite SimpleStringSplit_spec, nonempty_runs_append.
  rewrite <- !SimpleStringSplit_spec. by rewrite IH, Hone.
Qed.

Lemma SimpleStringSplit_join_witness :
  Forall (token_of ",") ["orders"; "orders_gin_idx"]
  ∧ join "," ["orders"; "orders_gin_idx"] = "orders,orders_gin_idx"
  ∧ SimpleStringSplit "orders,orders_gin_idx" ","
    = ["orders"; "orders_gin_idx"].
Proof.
  assert (Forall (token_of ",") ["orders"; "orders_gin_idx"]) as Hts
    by (repeat constructor; done).
  split; [exact Hts|]. split; [reflexivity|].
  exact (SimpleStringSplit_join ["orders"; "orders_gin_idx"] "," Hts).
Defined.

(** X5.  The tokenizer returns no token exactly when the input consists of
    separators only, the empty input included. *)
Theorem SimpleStringSplit_nil_iff s separator :
  SimpleStringSplit s separator = [] ↔ made_of separator s = true.
Proof.
  rewrite SimpleStringSplit_spec, made_of_fields. unfold nonempty_runs.
  induction (fields separator s) as [|t ts IH].
  - split; [by constructor|done].
  - rewrite filter_cons, Forall_cons.
    destruct (decide (t ≠ EmptyString)) as [Ht|Ht].
    + split; [done|]. by intros [? _].
    + apply dec_stable in Ht. rewrite IH. tauto.
Qed.

(** ** Further properties of [varForcedIndexAssign] *)



(** X6.  Whatever string is assigned to an empty store and whether or not
    the assignment is rejected, the state it leaves satisfies the module's
    invariant again, and the two hook variables are as they were. *)
Theorem varForcedIndexAssign_keeps_invariant E newval g :
  wf g →
  directives g = [] →
  wf (varForcedIndexAssign E newval g).2
  ∧ oldHook (varForcedIndexAssign E newval g).2 = oldHook g
  ∧ get_relation_info_hook (varForcedIndexAssign E newval g).2
    = get_relation_info_hook g.
Proof.
  intros Hwf Hnil.
  pose proof (varForcedIndexAssign_spec E newval g Hwf Hnil) as Hspec.
  destruct (compile E newval);
    destruct Hspec as (g' & -> & Hwf' & _ & Ho & Hh); done.
Qed.

Lemma varForcedIndexAssign_keeps_invariant_witness :
  wf (boot None)
  ∧ directives (boot None) = []
  ∧ wf (varForcedIndexAssign Sample.env "T2,BADNAME" (boot None)).2
  ∧ wf (varForcedIndexAssign Sample.env "T2,I2" (boot None)).2.
Proof.
  split; [apply wf_boot|]. split; [reflexivity|]. split.
  - apply (varForcedIndexAssign_keeps_invariant Sample.env "T2,BADNAME"
             (boot None) (wf_boot None) eq_refl).
  - apply (varForcedIndexAssign_keeps_invariant Sample.env "T2,I2"
             (boot None) (wf_boot None) eq_refl).
Defined.

(** X7.  On an empty store the assignment succeeds exactly on the
    configurations in which every group is empty of items or names a table
    and then indexes only; the store then holds one directive per group, in
    the order of the groups. *)
Theorem varForcedIndexAssign_accepts_iff E newval g :
  wf g →
  directives g = [] →
  ((∃ g', varForcedIndexAssign E newval g = (Ok tt, g'))
   ↔ valid_config E newval)
  ∧ ∀ g', varForcedIndexAssign E newval g = (Ok tt, g') →
          contents g' = directives_of_config E newval.
Proof.
  intros Hwf Hnil.
  pose proof (varForcedIndexAssign_spec E newval g Hwf Hnil) as Hspec.
  destruct (compile E newval) as [e|ds] eqn:Hc.
  - destruct Hspec as (g1 & Hrun & _). split.
    + split; [intros [g' Hg']; congruence|].
      intros Hvalid%compile_valid. congruence.
    + intros g' Hg'. congruence.
  - destruct Hspec as (g1 & Hrun & _ & Hcont & _).
    pose proof (compile_inr E newval ds Hc) as Hvalid.
    rewrite (compile_valid E newval Hvalid) in Hc. injection Hc as <-.
    split; [split; [done|by exists g1]|].
    intros g' Hg'. congruence.
Qed.

Lemma varForcedIndexAssign_accepts_iff_witness :
  wf (boot None)
  ∧ directives (boot None) = []
  ∧ valid_config Sample.env "T2,I2,I3;T1"
  ∧ ∃ g', varForcedIndexAssign Sample.env "T2,I2,I3;T1" (boot None)
          = (Ok tt, g')
          ∧ contents g' = [Sample.force Sample.T2 [Sample.I2; Sample.I3];
                           Sample.force Sample.T1 []].
Proof.
  destruct (varForcedIndexAssign_accepts_iff Sample.env "T2,I2,I3;T1"
              (boot None) (wf_boot None) eq_refl) as [[Hif Hfi] Hcont].
  assert (valid_config Sample.env "T2,I2,I3;T1") as Hvalid.
  { apply (compile_inr Sample.env "T2,I2,I3;T1"
             [Sample.force Sample.T2 [Sample.I2; Sample.I3];
              Sample.force Sample.T1 []]). reflexivity. }
  split; [apply wf_boot|]. split; [reflexivity|]. split; [exact Hvalid|].
  destruct (Hfi Hvalid) as [g' Hg']. exists g'. split; [done|].
  by rewrite (Hcont g' Hg').
Defined.

(** X8.  A rejected assignment to an empty store does not stand in the way
    of a later one: the store is still empty, and a valid configuration
    assigned next is installed, one directive per group. *)
Theorem varForcedIndexAssign_after_rejection E earlier newval g e :
  wf g →
  directives g = [] →
  compile E earlier = inl e →
  valid_config E newval →
  ∃ g1 g',
    varForcedIndexAssign E earlier g = (Raise (ERROR e), g1)
    ∧ directives g1 = []
    ∧ varForcedIndexAssign E newval g1 = (Ok tt, g')
    ∧ contents g' = directives_of_config E newval.
Proof.
  intros Hwf Hnil Hfail Hvalid.
  pose proof (varForcedIndexAssign_spec E earlier g Hwf Hnil) as H1.
  rewrite Hfail in H1. destruct H1 as (g1 & Hrun1 & Hwf1 & Hnil1 & _).
  pose proof (varForcedIndexAssign_spec E newval g1 Hwf1 Hnil1) as H2.
  rewrite (compile_valid E newval Hvalid) in H2.
  destruct H2 as (g' & Hrun2 & _ & Hc & _). by exists g1, g'.
Qed.

Lemma varForcedIndexAssign_after_rejection_witness :
  wf (boot None)
  ∧ directives (boot None) = []
  ∧ compile Sample.env "T1,NOSUCH" = inl (oid_invalid_for_name "NOSUCH")
  ∧ valid_config Sample.env "T2,I2"
  ∧ ∃ g1 g',
      varForcedIndexAssign Sample.env "T1,NOSUCH" (boot None)
      = (Raise (ERROR (oid_invalid_for_name "NOSUCH")), g1)
      ∧ varForcedIndexAssign Sample.env "T2,I2" g1 = (Ok tt, g')
      ∧ contents g' = [Sample.force Sample.T2 [Sample.I2]].
Proof.
  assert (valid_config Sample.env "T2,I2") as Hvalid.
  { apply (compile_inr Sample.env "T2,I2"
             [Sample.force Sample.T2 [Sample.I2]]). reflexivity. }
  split; [apply wf_boot|]. do 2 (split; [reflexivity|]).
  split; [exact Hvalid|].
  destruct (varForcedIndexAssign_after_rejection Sample.env "T1,NOSUCH"
              "T2,I2" (boot None) _ (wf_boot None) eq_refl eq_refl Hvalid)
    as (g1 & g' & Hrun1 & _ & Hrun2 & Hc).
  exists g1, g'. split_and!; [done..|]. by rewrite Hc.
Defined.

(** X9.  With a directive stored, every assignment, whatever the string,
    ends before the string is split or compiled: the loop that discards the
    stored directives hands the first of them to [free], and the store is
    as it was at that point. *)
Theorem varForcedIndexAssign_stored_directive_faults E newval g p ps :
  wf g →
  directives g = p :: ps →
  varForcedIndexAssign E newval g = (Raise (INVALID_FREE p), g)
  ∧ ∀ other, varForcedIndexAssign E other g
             = varForcedIndexAssign E newval g.
Proof.
  intros Hwf Hds. split.
  - by apply varForcedIndexAssign_faults with ps.
  - intros other.
    by rewrite !(varForcedIndexAssign_faults E _ g p ps Hwf Hds).
Qed.

Lemma varForcedIndexAssign_stored_directive_faults_witness :
  wf Sample.store_T1_twice
  ∧ directives Sample.store_T1_twice = [0; 1]%N
  ∧ varForcedIndexAssign Sample.env ";;" Sample.store_T1_twice
    = (Raise (INVALID_FREE 0), Sample.store_T1_twice).
Proof.
  split; [apply wf_holding2|]. split; [reflexivity|].
  apply (varForcedIndexAssign_stored_directive_faults Sample.env ";;"
           Sample.store_T1_twice 0%N [1%N] (wf_holding2 _ _) eq_refl).
Defined.

(** X10.  On an empty store, when every earlier group is acceptable and, in
    a group, the items before some item are acceptable too, that item decides
    the error: a name that does not resolve is reported as such, a second
    table as a second table, and a relation that is neither a table nor an
    index as an unhandled kind; the assignment is rejected and the store
    stays empty. *)
Theorem varForcedIndexAssign_first_offender
    E newval g pre grp post prefix name rest :
  wf g →
  directives g = [] →
  SimpleStringSplit newval ";" = pre ++ grp :: post →
  Forall (λ s, table_then_indexes E (SimpleStringSplit s ",")) pre →
  SimpleStringSplit grp "," = prefix ++ name :: rest →
  table_then_indexes E prefix →
  let rejected_with e :=
    ∃ g', varForcedIndexAssign E newval g = (Raise (ERROR e), g')
          ∧ directives g' = [] in
  (relid_of_name E name = InvalidOid →
   rejected_with (oid_invalid_for_name name))
  ∧ (names_table E name → prefix ≠ [] →
     rejected_with (only_one_relation name))
  ∧ (relid_of_name E name ≠ InvalidOid →
     get_rel_relkind E (relid_of_name E name) ≠ RELKIND_RELATION →
     get_rel_relkind E (relid_of_name E name) ≠ RELKIND_INDEX →
     rejected_with (unhandled_relkind name)).
Proof.
  intros Hwf Hnil Hsplit Hpre Hgrp Hprefix rejected_with.
  assert (∀ e, add_item E (directive_of_items E prefix) name = inl e →
               rejected_with e) as Hrej.
  { intros e Hitem.
    pose proof (varForcedIndexAssign_spec E newval g Hwf Hnil) as Hspec.
    unfold compile in Hspec.
    rewrite Hsplit, (compile_first_offender E pre grp post prefix name rest e)
      in Hspec by done.
    destruct Hspec as (g' & Hrun & _ & Hnil' & _). by exists g'. }
  split_and!.
  - intros Hoid. apply Hrej. unfold add_item. by rewrite decide_True.
  - intros Hname Hne. apply Hrej.
    rewrite (add_item_table E _ name Hname). rewrite decide_True; [done|].
    destruct Hprefix as [->|(t & idxs & -> & Ht & _)]; [done|]. apply Ht.
  - intros Hoid Hr Hi. apply Hrej. unfold add_item.
    by rewrite !decide_False.
Qed.

Lemma varForcedIndexAssign_first_offender_witness :
  wf (boot None)
  ∧ directives (boot None) = []
  ∧ SimpleStringSplit "T2;T1,I1,T2,I2" ";" = ["T2"] ++ "T1,I1,T2,I2" :: []
  ∧ SimpleStringSplit "T1,I1,T2,I2" "," = ["T1"; "I1"] ++ "T2" :: ["I2"]
  ∧ names_table Sample.env "T2"
  ∧ ∃ g',
      varForcedIndexAssign Sample.env "T2;T1,I1,T2,I2" (boot None)
      = (Raise (ERROR (only_one_relation "T2")), g')
      ∧ directives g' = [].
Proof.
  assert (names_table Sample.env "T2") as HT2 by (split; [done|reflexivity]).
  assert (names_table Sample.env "T1") as HT1 by (split; [done|reflexivity]).
  assert (names_index Sample.env "I1") as HI1 by (split; [done|reflexivity]).
  split; [apply wf_boot|]. do 3 (split; [reflexivity|]). split; [exact HT2|].
  destruct (varForcedIndexAssign_first_offender Sample.env "T2;T1,I1,T2,I2"
              (boot None) ["T2"] "T1,I1,T2,I2" [] ["T1"; "I1"] "T2" ["I2"]
              (wf_boot None) eq_refl eq_refl) as (_ & Htable & _).
  - constructor; [|constructor]. right. exists "T2", []. by split_and!.
  - reflexivity.
  - right. exists "T1", ["I1"]. split_and!; [done..|by constructor].
  - by apply Htable.
Defined.

(** X11.  After a successful assignment every stored directive has the kinds
    the data model asks for: either no table and no index at all, or a
    relation that is an ordinary table together with a whitelist of
    relations that are all indexes. *)
Theorem varForcedIndexAssign_well_kinded E newval g g' :
  wf g →
  varForcedIndexAssign E newval g = (Ok tt, g') →
  Forall (well_kinded E) (contents g').
Proof.
  intros Hwf Hrun.
  destruct (directives g) as [|p ps] eqn:Hds.
  2:{ rewrite (varForcedIndexAssign_faults E newval g p ps Hwf Hds) in Hrun.
      discriminate. }
  pose proof (varForcedIndexAssign_spec E newval g Hwf Hds) as Hspec.
  destruct (compile E newval) as [e|ds] eqn:Hc.
  - destruct Hspec as (g1 & Hrun1 & _). congruence.
  - destruct Hspec as (g1 & Hrun1 & _ & Hcont & _).
    assert (g1 = g') as -> by congruence. rewrite Hcont.
    pose proof (compile_inr E newval ds Hc) as Hvalid.
    rewrite (compile_valid E newval Hvalid) in Hc. injection Hc as <-.
    unfold directives_of_config. apply Forall_fmap.
    eapply Forall_impl; [exact Hvalid|].
    intros s Hs. by apply well_kinded_directive_of_items.
Qed.

Lemma varForcedIndexAssign_well_kinded_witness :
  wf (boot None)
  ∧ varForcedIndexAssign Sample.env "T1,I1;T1,I2" (boot None)
    = (Ok tt, Sample.store_T1_twice)
  ∧ Forall (well_kinded Sample.env) (contents Sample.store_T1_twice).
Proof.
  assert (varForcedIndexAssign Sample.env "T1,I1;T1,I2" (boot None)
          = (Ok tt, Sample.store_T1_twice)) as Hrun
    by (vm_compute; reflexivity).
  split; [apply wf_boot|]. split; [exact Hrun|].
  exact (varForcedIndexAssign_well_kinded Sample.env "T1,I1;T1,I2" (boot None)
           Sample.store_T1_twice (wf_boot None) Hrun).
Defined.

(** X12.  Assigning, to an empty store, two valid configurations written one
    after the other with a [';'] between them installs the directives of the
    first followed by the directives of the second. *)
Theorem varForcedIndexAssign_concat E a b g :
  wf g →
  directives g = [] →
  valid_config E a →
  valid_config E b →
  ∃ g',
    varForcedIndexAssign E (a +:+ String ";" b) g = (Ok tt, g')
    ∧ contents g' = directives_of_config E a ++ directives_of_config E b.
Proof.
  intros Hwf Hnil Ha Hb.
  assert (valid_config E (a +:+ String ";" b)) as Hab.
  { unfold valid_config in *.
    rewrite SimpleStringSplit_spec, nonempty_runs_append.
    rewrite <- !SimpleStringSplit_spec. by apply Forall_app. }
  pose proof (varForcedIndexAssign_spec E (a +:+ String ";" b) g Hwf Hnil)
    as Hspec.
  rewrite (compile_valid E _ Hab) in Hspec.
  destruct Hspec as (g' & Hrun & _ & Hc & _). exists g'. split; [done|].
  rewrite Hc. unfold directives_of_config.
  rewrite (SimpleStringSplit_spec (a +:+ String ";" b)), nonempty_runs_append.
  by rewrite <- !SimpleStringSplit_spec, fmap_app.
Qed.

Lemma varForcedIndexAssign_concat_witness :
  wf (boot None)
  ∧ directives (boot None) = []
  ∧ valid_config Sample.env "T1,I1"
  ∧ valid_config Sample.env "T2,I2,I3"
  ∧ ∃ g',
      varForcedIndexAssign Sample.env "T1,I1;T2,I2,I3" (boot None)
      = (Ok tt, g')
      ∧ contents g' = [Sample.force Sample.T1 [Sample.I1];
                       Sample.force Sample.T2 [Sample.I2; Sample.I3]].
Proof.
  assert (valid_config Sample.env "T1,I1") as Ha.
  { apply (compile_inr Sample.env "T1,I1"
             [Sample.force Sample.T1 [Sample.I1]]). reflexivity. }
  assert (valid_config Sample.env "T2,I2,I3") as Hb.
  { apply (compile_inr Sample.env "T2,I2,I3"
             [Sample.force Sample.T2 [Sample.I2; Sample.I3]]). reflexivity. }
  split; [apply wf_boot|]. split; [reflexivity|]. do 2 (split; [done|]).
  destruct (varForcedIndexAssign_concat Sample.env "T1,I1" "T2,I2,I3"
              (boot None) (wf_boot None) eq_refl Ha Hb) as (g' & Hrun & Hc).
  exists g'. split; [exact Hrun|]. by rewrite Hc.
Defined.

(** *** No directive object is left behind *)

Lemma assign_sections_heap E sections : ∀ acc g out g',
  foreach_acc sections acc (assign_section E) g = (Ok out, g') →
  (∀ p, p ∈ acc → p ∈ out)
  ∧ ∀ q, is_Some (heap g' !! q) → is_Some (heap g !! q) ∨ q ∈ out.
Proof.
  induction sections as [|s sections IH]; intros acc g out g'; simpl.
  - intros [= <- <-]. split; [done|]. by left.
  - pose proof (assign_section_spec E acc s g) as Hs. simpl in Hs.
    destruct (compile_section E s) as [e|d].
    + destruct Hs as [w Hs]. by rewrite (bind_Raise _ _ _ _ _ Hs).
    + rewrite (bind_Ok _ _ _ _ _ Hs). intros Hrun.
      apply IH in Hrun as [Hacc Hheap]. split.
      * intros p Hp. apply Hacc, elem_of_app. by left.
      * intros q Hq. apply Hheap in Hq as [Hq|Hq]; [|by right].
        simpl in Hq. destruct (decide (q = fresh (dom (heap g)))) as [->|Hne].
        -- right. apply Hacc, elem_of_app. right. by left.
        -- left. by rewrite lookup_insert_ne in Hq.
Qed.

(** X13.  A successful assignment to an empty store with no directive
    object allocated leaves no directive object behind: every object it
    allocated is linked in the store. *)
Theorem varForcedIndexAssign_no_garbage E newval g g' :
  wf g →
  directives g = [] →
  no_garbage g →
  varForcedIndexAssign E newval g = (Ok tt, g') →
  no_garbage g'.
Proof.
  intros Hwf Hnil Hgarbage. unfold varForcedIndexAssign.
  rewrite (bind_Ok _ _ _ _ _ (assign_discard_old_empty g Hnil)).
  destruct (foreach_acc (SimpleStringSplit newval ";") [] (assign_section E) g)
    as [[out|e] g2] eqn:Hloop.
  - rewrite (bind_Ok _ _ _ _ _ Hloop), install_spec. intros [= <-].
    apply assign_sections_heap in Hloop as [_ Hheap].
    intros q Hq. simpl in *. apply Hheap in Hq as [Hq|Hq].
    + apply Hgarbage in Hq. rewrite Hnil in Hq. by apply elem_of_nil in Hq.
    + apply elem_of_app. by right.
  - by rewrite (bind_Raise _ _ _ _ _ Hloop).
Qed.

Lemma varForcedIndexAssign_no_garbage_witness :
  wf (boot None)
  ∧ directives (boot None) = []
  ∧ no_garbage (boot None)
  ∧ varForcedIndexAssign Sample.env "T1,I1;T1,I2" (boot None)
    = (Ok tt, Sample.store_T1_twice)
  ∧ no_garbage Sample.store_T1_twice.
Proof.
  assert (no_garbage (boot None)) as Hgarbage.
  { intros p [d Hd]. simpl in Hd. by rewrite lookup_empty in Hd. }
  assert (varForcedIndexAssign Sample.env "T1,I1;T1,I2" (boot None)
          = (Ok tt, Sample.store_T1_twice)) as Hrun
    by (vm_compute; reflexivity).
  split; [apply wf_boot|]. split; [reflexivity|].
  split; [exact Hgarbage|]. split; [exact Hrun|].
  exact (varForcedIndexAssign_no_garbage Sample.env "T1,I1;T1,I2"
           (boot None) _ (wf_boot None) eq_refl Hgarbage Hrun).
Defined.

(** ** Further properties of [planfixHook] *)

Lemma filter_none {A} (P : A → Prop) `{∀ x, Decision (P x)} (l : list A) :
  Forall (λ x, ¬ P x) l → filter P l = [].
Proof.
  induction 1 as [|x l Hx _ IH]; [done|]. by rewrite filter_cons_False.
Qed.

Section HookMore.

Variable E : Env.

Lemma filter_by_idempotent T ds l :
  filter_by E T ds (filter_by E T ds l) = filter_by E T ds l.
Proof. rewrite !filter_by_intersection. by apply list_filter_filter_l. Qed.

Lemma filter_by_Permutation T ds ds' l :
  ds ≡ₚ ds' → filter_by E T ds l = filter_by E T ds' l.
Proof.
  intros Hperm. rewrite !filter_by_intersection. apply list_filter_iff.
  intros p. unfold in_every_whitelist. by rewrite Hperm.
Qed.

Lemma filter_by_same_whitelist T ds ds' l :
  Forall2 same_whitelist ds ds' → filter_by E T ds l = filter_by E T ds' l.
Proof.
  intros Hsame. rewrite !filter_by_intersection. apply list_filter_iff.
  intros p. unfold in_every_whitelist.
  induction Hsame as [|d d' ds ds' [Hr Hi] _ IH]; [done|].
  rewrite !Forall_cons, IH, Hr, Hi.
  assert (indices d ≠ [] ↔ indices d' ≠ []) as Hne.
  { destruct (indices d) as [|x ?], (indices d') as [|y ?]; try done.
    - exfalso. apply (not_elem_of_nil y), Hi. by left.
    - exfalso. apply (not_elem_of_nil x), Hi. by left. }
  tauto.
Qed.

End HookMore.

(** X14.  For a relation that is not an ordinary table the hook removes
    nothing, whatever the store holds: it hands the candidate list on as it
    received it. *)
Theorem planfixHook_other_relkind E root T inhparent rel g :
  wf g →
  get_rel_relkind E T ≠ RELKIND_RELATION →
  planfixHook E root T inhparent rel g
  = (Ok (delegate E (oldHook g) root T inhparent rel), g).
Proof.
  intros Hwf Hkind. rewrite planfixHook_spec by done. unfold hook_result.
  destruct rel as [l]. simpl. by rewrite decide_False.
Qed.

Lemma planfixHook_other_relkind_witness :
  wf (Sample.holding (Sample.force 30 [Sample.I1]))
  ∧ get_rel_relkind Sample.env 30%N ≠ RELKIND_RELATION
  ∧ planfixHook Sample.env tt 30%N false (mkRelOptInfo [1; 2; 3]%N)
      (Sample.holding (Sample.force 30 [Sample.I1]))
    = (Ok (mkRelOptInfo [1; 2; 3]%N),
       Sample.holding (Sample.force 30 [Sample.I1])).
Proof.
  split; [apply wf_holding|]. split; [done|].
  by rewrite (planfixHook_other_relkind Sample.env tt 30%N false
                (mkRelOptInfo [1; 2; 3]%N) _ (wf_holding _)).
Defined.

(** X15.  The hook's own filtering is idempotent: with no earlier hook to
    call, running it again on the list it returned changes nothing. *)
Theorem planfixHook_idempotent E root T inhparent rel g :
  wf g →
  oldHook g = None →
  ∃ rel',
    planfixHook E root T inhparent rel g = (Ok rel', g)
    ∧ planfixHook E root T inhparent rel' g = (Ok rel', g).
Proof.
  intros Hwf Hold.
  exists (mkRelOptInfo (hook_result E T (contents g) (indexlist rel))).
  rewrite !planfixHook_spec by done. rewrite Hold. simpl.
  split; [reflexivity|].
  unfold hook_result. case_decide; [|done]. by rewrite filter_by_idempotent.
Qed.

Lemma planfixHook_idempotent_witness :
  wf Sample.store_T1_overlap
  ∧ oldHook Sample.store_T1_overlap = None
  ∧ planfixHook Sample.env tt Sample.T1 false (mkRelOptInfo [1; 2; 3]%N)
      Sample.store_T1_overlap
    = (Ok (mkRelOptInfo [2%N]), Sample.store_T1_overlap)
  ∧ planfixHook Sample.env tt Sample.T1 false (mkRelOptInfo [2%N])
      Sample.store_T1_overlap
    = (Ok (mkRelOptInfo [2%N]), Sample.store_T1_overlap).
Proof.
  destruct (planfixHook_idempotent Sample.env tt Sample.T1 false
              (mkRelOptInfo [1; 2; 3]%N) Sample.store_T1_overlap
              (wf_holding2 _ _) eq_refl) as (rel' & H1 & H2).
  assert (rel' = mkRelOptInfo [2%N]) as ->.
  { apply (f_equal fst) in H1. simpl in H1.
    assert (Ok rel' = Ok (mkRelOptInfo [2%N])) as Heq
      by (rewrite <- H1; reflexivity).
    by injection Heq. }
  split; [apply wf_holding2|]. by split_and!.
Defined.

(** X16.  The result of the hook does not depend on the order in which the
    store holds its directives. *)
Theorem planfixHook_store_order E root T inhparent rel g g' :
  wf g → wf g' →
  contents g ≡ₚ contents g' →
  oldHook g = oldHook g' →
  (planfixHook E root T inhparent rel g).1
  = (planfixHook E root T inhparent rel g').1.
Proof.
  intros Hwf Hwf' Hperm Hold. rewrite !planfixHook_spec by done. simpl.
  rewrite Hold. unfold hook_result. case_decide; [|done].
  by rewrite (filter_by_Permutation E T _ _ _ Hperm).
Qed.

Lemma planfixHook_store_order_witness :
  wf (Sample.holding2 (Sample.force Sample.T1 [Sample.I1; Sample.I2])
                      (Sample.force Sample.T2 [Sample.I3]))
  ∧ wf (Sample.holding2 (Sample.force Sample.T2 [Sample.I3])
                        (Sample.force Sample.T1 [Sample.I1; Sample.I2]))
  ∧ (planfixHook Sample.env tt Sample.T1 false (mkRelOptInfo [1; 2; 3]%N)
       (Sample.holding2 (Sample.force Sample.T1 [Sample.I1; Sample.I2])
                        (Sample.force Sample.T2 [Sample.I3]))).1
    = (planfixHook Sample.env tt Sample.T1 false (mkRelOptInfo [1; 2; 3]%N)
         (Sample.holding2 (Sample.force Sample.T2 [Sample.I3])
                          (Sample.force Sample.T1 [Sample.I1; Sample.I2]))).1.
Proof.
  split; [apply wf_holding2|]. split; [apply wf_holding2|].
  apply planfixHook_store_order;
    [apply wf_holding2|apply wf_holding2| |reflexivity].
  apply perm_swap.
Defined.

(** X17.  When a directive for an ordinary table [T] has a non-empty
    whitelist and no candidate presented for [T] is on it, the hook removes
    every candidate: the list it hands on is empty. *)
Theorem planfixHook_removes_all E root T inhparent rel g d :
  wf g →
  get_rel_relkind E T = RELKIND_RELATION →
  d ∈ contents g →
  relation d = T →
  indices d ≠ [] →
  (∀ p, p ∈ indexlist rel → indexoid (info_at E p) ∉ indices d) →
  planfixHook E root T inhparent rel g
  = (Ok (delegate E (oldHook g) root T inhparent (mkRelOptInfo [])), g).
Proof.
  intros Hwf Hkind Hd HT HW Hnone. rewrite planfixHook_spec by done.
  unfold hook_result. rewrite decide_True by done.
  rewrite filter_by_intersection, filter_none; [done|].
  apply Forall_forall. intros p Hp Hall. unfold in_every_whitelist in Hall.
  rewrite Forall_forall in Hall. by apply (Hnone p Hp), (Hall d Hd).
Qed.

Lemma planfixHook_removes_all_witness :
  wf Sample.store_T1_I1
  ∧ get_rel_relkind Sample.env Sample.T1 = RELKIND_RELATION
  ∧ planfixHook Sample.env tt Sample.T1 false (mkRelOptInfo [2; 3]%N)
      Sample.store_T1_I1
    = (Ok (mkRelOptInfo []), Sample.store_T1_I1).
Proof.
  split; [apply wf_holding|]. split; [reflexivity|].
  rewrite (planfixHook_removes_all Sample.env tt Sample.T1 false
             (mkRelOptInfo [2; 3]%N) Sample.store_T1_I1
             (Sample.force Sample.T1 [Sample.I1]) (wf_holding _) eq_refl);
    [reflexivity| |reflexivity|discriminate|].
  - by apply list_elem_of_singleton.
  - intros p [->|[->|Hp%elem_of_nil]%elem_of_cons]%elem_of_cons Hin;
      [| |done]; by apply list_elem_of_singleton in Hin.
Defined.

(** X18.  Only membership in a whitelist counts: two stores whose
    directives, taken in order, name the same tables and list the same
    indexes, in whatever order and however often, make the hook return the
    same result. *)
Theorem planfixHook_whitelist_as_set E root T inhparent rel g g' :
  wf g → wf g' →
  Forall2 same_whitelist (contents g) (contents g') →
  oldHook g = oldHook g' →
  (planfixHook E root T inhparent rel g).1
  = (planfixHook E root T inhparent rel g').1.
Proof.
  intros Hwf Hwf' Hsame Hold. rewrite !planfixHook_spec by done. simpl.
  rewrite Hold. unfold hook_result. case_decide; [|done].
  by rewrite (filter_by_same_whitelist E T _ _ _ Hsame).
Qed.

Lemma planfixHook_whitelist_as_set_witness :
  wf Sample.store_T1_I1_I2
  ∧ wf (Sample.holding (Sample.force Sample.T1 [Sample.I2; Sample.I1; Sample.I2]))
  ∧ (planfixHook Sample.env tt Sample.T1 false (mkRelOptInfo [1; 2; 3]%N)
       Sample.store_T1_I1_I2).1
    = (planfixHook Sample.env tt Sample.T1 false (mkRelOptInfo [1; 2; 3]%N)
         (Sample.holding
            (Sample.force Sample.T1 [Sample.I2; Sample.I1; Sample.I2]))).1.
Proof.
  split; [apply wf_holding|]. split; [apply wf_holding|].
  apply planfixHook_whitelist_as_set;
    [apply wf_holding|apply wf_holding| |reflexivity].
  constructor; [|constructor]. split; [reflexivity|].
  intros o. simpl. rewrite !elem_of_cons. tauto.
Defined.

(** ** Assignment and planning together *)

(** X20.  After a valid configuration is assigned to an empty store, in
    which one group names
    the table [t] and at least one index, and no other group names [t] with
    any index, planning [t] keeps exactly the candidates whose index the
    group names, in their order, and hands them to the earlier hook, if
    there is one. *)
Theorem assigned_whitelist_filters E newval g pre grp post t idxs :
  wf g →
  directives g = [] →
  valid_config E newval →
  SimpleStringSplit newval ";" = pre ++ grp :: post →
  SimpleStringSplit grp "," = t :: idxs →
  idxs ≠ [] →
  (∀ s t' idxs', s ∈ pre ++ post →
                 SimpleStringSplit s "," = t' :: idxs' →
                 relid_of_name E t' = relid_of_name E t → idxs' = []) →
  ∃ g',
    varForcedIndexAssign E newval g = (Ok tt, g')
    ∧ ∀ root inhparent rel,
        planfixHook E root (relid_of_name E t) inhparent rel g'
        = (Ok (delegate E (oldHook g) root (relid_of_name E t) inhparent
                 (mkRelOptInfo
                    (filter (λ p, indexoid (info_at E p)
                                  ∈ relid_of_name E <$> idxs)
                            (indexlist rel)))), g').
Proof.
  intros Hwf Hnil Hvalid Hsplit Hgrp Hidxs Hothers.
  pose proof (varForcedIndexAssign_spec E newval g Hwf Hnil) as Hspec.
  rewrite (compile_valid E newval Hvalid) in Hspec.
  destruct Hspec as (g' & Hrun & Hwf' & Hc & Hold & _).
  exists g'. split; [done|]. intros root inhparent rel.
  rewrite planfixHook_spec by done. rewrite Hold, Hc.
  unfold valid_config in Hvalid. unfold directives_of_config.
  rewrite Hsplit in *. rewrite fmap_app, fmap_cons, Hgrp.
  apply Forall_app in Hvalid as [_ [Hg _]%Forall_cons]. rewrite Hgrp in Hg.
  destruct Hg as [?|(t0 & idxs0 & [= <- <-] & [Hoid Hkind] & _)]; [done|].
  unfold hook_result. rewrite decide_True by done.
  assert (∀ l : list string, (∀ s, s ∈ l → s ∈ pre ++ post) →
            ∀ d, d ∈ (λ s, directive_of_items E (SimpleStringSplit s ","))
                       <$> l →
                 relation d = relid_of_name E t → indices d = []) as Hinert.
  { intros l Hl d (s & -> & Hs)%list_elem_of_fmap Hr.
    destruct (SimpleStringSplit s ",") as [|t' idxs'] eqn:Hitems; [done|].
    simpl in *. by rewrite (Hothers s t' idxs' (Hl s Hs) Hitems Hr). }
  rewrite filter_by_app, filter_by_cons.
  rewrite decide_True.
  2:{ unfold applies. simpl. split_and!; [done..|]. by destruct idxs. }
  rewrite (filter_by_inert E _ (_ <$> pre))
    by (apply Hinert; intros s Hs; apply elem_of_app; by left).
  rewrite (filter_by_inert E _ (_ <$> post))
    by (apply Hinert; intros s Hs; apply elem_of_app; by right).
  reflexivity.
Qed.

Lemma assigned_whitelist_filters_witness :
  wf (boot None)
  ∧ directives (boot None) = []
  ∧ valid_config Sample.env "T2;T1,I1,I2"
  ∧ SimpleStringSplit "T2;T1,I1,I2" ";" = ["T2"] ++ "T1,I1,I2" :: []
  ∧ SimpleStringSplit "T1,I1,I2" "," = "T1" :: ["I1"; "I2"]
  ∧ ∃ g',
      varForcedIndexAssign Sample.env "T2;T1,I1,I2" (boot None) = (Ok tt, g')
      ∧ planfixHook Sample.env tt Sample.T1 false (mkRelOptInfo [3; 2; 1]%N) g'
        = (Ok (mkRelOptInfo [2; 1]%N), g').
Proof.
  assert (valid_config Sample.env "T2;T1,I1,I2") as Hvalid.
  { apply (compile_inr Sample.env "T2;T1,I1,I2"
             [Sample.force Sample.T2 [];
              Sample.force Sample.T1 [Sample.I1; Sample.I2]]). reflexivity. }
  split; [apply wf_boot|]. split; [reflexivity|]. split; [exact Hvalid|].
  do 2 (split; [reflexivity|]).
  destruct (assigned_whitelist_filters Sample.env "T2;T1,I1,I2" (boot None)
              ["T2"] "T1,I1,I2" [] "T1" ["I1"; "I2"] (wf_boot None) eq_refl
              Hvalid eq_refl eq_refl) as (g' & Hrun & Hhook).
  - discriminate.
  - intros s t' idxs' Hs%list_elem_of_singleton Hitems Hr. subst s.
    injection Hitems as <- <-. reflexivity.
  - exists g'. split; [exact Hrun|].
    etrans; [exact (Hhook tt false (mkRelOptInfo [3; 2; 1]%N))|reflexivity].
Defined.

(** ** [varForcedIndexShow] *)

Lemma strcpy_fits size : ∀ src,
  strcpy size src
  = if decide (String.length src < size) then Some src else None.
Proof.
  induction size as [|size IH]; intros src.
  - destruct src; cbn [strcpy]; case_decide as H; simpl in H; [lia|done|lia|done].
  - destruct src as [|c rest]; cbn [strcpy].
    + case_decide as H; simpl in H; [done|lia].
    + rewrite IH.
      destruct (decide (String.length rest < size)) as [Hr|Hr];
        case_decide as H; simpl in H; try done; lia.
Qed.

(** X21.  The show function returns the current value of the variable
    character for character, for every value: the buffer it allocates holds
    the whole string with its terminating NUL, and one byte less would
    not. *)
Theorem varForcedIndexShow_verbatim varForcedIndex :
  varForcedIndexShow varForcedIndex = Some varForcedIndex
  ∧ strcpy (String.length varForcedIndex) varForcedIndex = None.
Proof.
  unfold varForcedIndexShow. rewrite !strcpy_fits.
  split; case_decide; (done || lia).
Qed.
